(** * psg: the Pilgrim Syntax Generator (src/psg/cli.py)

    A shallow embedding of the [Generator] class and of [open_anything],
    and the properties of the grammar store and of the expander.

    The XML documents are modelled after parsing, as lxml element trees:
    an element has a tag, an attribute dictionary, a [text] (the character
    data before its first child), a [tail] (the character data between its
    end and the next sibling) and its children in document order.  The lxml
    parser itself, the file system and the random module are outside the
    repository; they enter as parameters of the sections below. *)

From Stdlib Require Import String Ascii List Arith Lia Bool PeanoNat.
Import ListNotations.
Local Open Scope string_scope.
Local Open Scope list_scope.

Set Implicit Arguments.
Set Warnings "-register-all".

(** ** Python values *)

(** The values of [node.get(name)], [node.text] and [node.tail]: a string or
    [None]. *)
Definition pystr := option string.

Definition pystr_eqb (a b : pystr) : bool :=
  match a, b with
  | None, None => true
  | Some x, Some y => String.eqb x y
  | _, _ => false
  end.

(** [s or ''] for [s] a string or [None]. *)
Definition or_empty (s : pystr) : string :=
  match s with
  | Some x => x
  | None => EmptyString
  end.

(** [str(x)] inside an f-string. *)
Definition str (s : pystr) : string :=
  match s with
  | Some x => x
  | None => "None"
  end.

(** [''.join(pieces)] *)
Definition join (pieces : list string) : string :=
  fold_right String.append EmptyString pieces.

(** ** Python dictionaries

    A [dict] keeps its keys in insertion order, and assigning to a key that
    is present replaces the value where the key stands.  The keys used in
    cli.py are the results of [get("id")]: a string or [None]. *)
Module Dict.

Definition t (V : Type) := list (pystr * V).

Definition empty {V} : t V := [].

(** [d.get(k)] *)
Fixpoint get {V} (k : pystr) (d : t V) : option V :=
  match d with
  | [] => None
  | (k', v) :: d' => if pystr_eqb k k' then Some v else get k d'
  end.

(** [d[k] = v] *)
Fixpoint set {V} (k : pystr) (v : V) (d : t V) : t V :=
  match d with
  | [] => [(k, v)]
  | (k', v') :: d' =>
      if pystr_eqb k k' then (k', v) :: d' else (k', v') :: set k v d'
  end.

(** [d.keys()] *)
Definition keys {V} (d : t V) : list pystr := map fst d.

(** [k in ks] for a key view or a list of keys *)
Definition mem (k : pystr) (ks : list pystr) : bool :=
  existsb (pystr_eqb k) ks.

End Dict.

(** ** Element trees *)

Inductive element : Type :=
  Element {
    tag : string;
    attrib : list (string * string);
    text : pystr;
    tail : pystr;
    children : list element
  }.

(** [node.get(name)]: the value of the attribute, [None] when absent. *)
Fixpoint attrib_get (name : string) (a : list (string * string)) : pystr :=
  match a with
  | [] => None
  | (n, v) :: a' => if String.eqb name n then Some v else attrib_get name a'
  end.

Definition get (node : element) (name : string) : pystr :=
  attrib_get name (attrib node).

(** [node.findall(t)] for a plain tag [t]: the children of [node] that carry
    the tag, in document order. *)
Definition findall (node : element) (t : string) : list element :=
  filter (fun c => String.eqb (tag c) t) (children node).

(** All the elements below [node], in document order, [node] excluded. *)
Fixpoint iterdescendants (node : element) : list element :=
  flat_map (fun c => c :: iterdescendants c) (children node).

(** [node.findall(".//t")]: the descendants of [node] that carry the tag. *)
Definition findall_desc (node : element) (t : string) : list element :=
  filter (fun c => String.eqb (tag c) t) (iterdescendants node).

(** The number of elements on the longest branch of a tree. *)
Fixpoint height (node : element) : nat :=
  S (list_max (map height (children node))).

(** ** The generator object and the effects of its methods *)

Record Generator : Type :=
  mkGenerator {
    grammar : element;
    refs : Dict.t element;
    source : element;
    pieces : list string;
    capitalize_next_word : bool
  }.

(** The exceptions that the methods let escape.  The specification calls
    [ValueError] from [get_default_source] NoStandaloneRuleError, the
    [AttributeError] of a reference to a missing rule UnknownRuleError, the
    parser's [XMLSyntaxError] GrammarParseError and the [OSError] of a
    source that cannot be opened GrammarLoadError.  [OtherError] stands for
    every other class, by its name: what the libraries raise besides
    ([UnicodeDecodeError], [TypeError], ...) passes through the methods. *)
Inductive exn : Type :=
| AttributeError
| IndexError
| ValueError
| XMLSyntaxError
| OSError
| OtherError (class_name : string).

(** The state that a call can change: the object and the random module. *)
Record world (R : Type) : Type :=
  mkWorld {
    self : Generator;
    rand : R
  }.

(** What a call does: return a value, raise, or recurse deeper than the
    fuel allows.  The object survives a raised exception, so the state is
    kept in that case too. *)
Inductive outcome (R A : Type) : Type :=
| Done (a : A) (w : world R)
| Raise (e : exn) (w : world R)
| OutOfFuel.

Arguments Done {R A} a w.
Arguments Raise {R A} e w.
Arguments OutOfFuel {R A}.

Definition M (R A : Type) : Type := world R -> outcome R A.

Definition ret {R A} (a : A) : M R A := fun w => Done a w.

Definition bind {R A B} (m : M R A) (k : A -> M R B) : M R B :=
  fun w =>
    match m w with
    | Done a w' => k a w'
    | Raise e w' => Raise e w'
    | OutOfFuel => OutOfFuel
    end.

Definition raise {R A} (e : exn) : M R A := fun w => Raise e w.

Declare Scope py_scope.
Delimit Scope py_scope with py.
Notation "x <- m ;; k" := (bind m (fun x => k))
  (at level 61, m at next level, right associativity) : py_scope.
Notation "m ;; k" := (bind m (fun _ => k))
  (at level 61, right associativity) : py_scope.
Local Open Scope py_scope.

(** [for x in xs: body(x)] *)
Fixpoint for_each {R A} (xs : list A) (body : A -> M R unit) : M R unit :=
  match xs with
  | [] => ret tt
  | x :: xs' => body x ;; for_each xs' body
  end.

(** Reading and writing the attributes of [self]. *)
Definition read {R A} (f : Generator -> A) : M R A :=
  fun w => Done (f (self w)) w.

Definition modify {R} (f : Generator -> Generator) : M R unit :=
  fun w => Done tt (mkWorld (f (self w)) (rand w)).

Definition set_grammar (g : element) (s : Generator) : Generator :=
  mkGenerator g (refs s) (source s) (pieces s) (capitalize_next_word s).

Definition set_refs (d : Dict.t element) (s : Generator) : Generator :=
  mkGenerator (grammar s) d (source s) (pieces s) (capitalize_next_word s).

Definition set_source (e : element) (s : Generator) : Generator :=
  mkGenerator (grammar s) (refs s) e (pieces s) (capitalize_next_word s).

Definition set_pieces (p : list string) (s : Generator) : Generator :=
  mkGenerator (grammar s) (refs s) (source s) p (capitalize_next_word s).

Definition set_capitalize_next_word (b : bool) (s : Generator) : Generator :=
  mkGenerator (grammar s) (refs s) (source s) (pieces s) b.

(** [self.pieces.append(x)] *)
Definition pieces_append {R} (x : string) : M R unit :=
  modify (fun s => set_pieces (pieces s ++ [x]) s).

(** The double quote of the f-strings. *)
Definition dquote : string := String (ascii_of_nat 34) EmptyString.

(** [f'<xref id="{xrefid}"/>'] *)
Definition xref_source (xrefid : pystr) : string :=
  "<xref id=" ++ dquote ++ str xrefid ++ dquote ++ "/>".

(** ** The methods that work on parsed trees

    [random.choice] draws through [randbelow]: [randbelow r n] is an index
    below [n] and the next state of the random source.  Any function is
    allowed for it; an index that is not below [n] is reduced modulo [n]. *)
Section Expansion.

Variable R : Type.
Variable randbelow : R -> nat -> nat * R.

(** [random.choice(seq)] *)
Definition choice {A} (seq : list A) : M R A :=
  fun w =>
    match seq with
    | [] => Raise IndexError w
    | x :: _ =>
        let (i, r) := randbelow (rand w) (length seq) in
        Done (nth (i mod length seq) seq x) (mkWorld (self w) r)
    end.

(** The dictionary that the loop of [load_grammar] builds: every top-level
    ref element under its id, in document order. *)
Definition load_refs (root : element) : Dict.t element :=
  fold_left (fun d ref => Dict.set (get ref "id") ref d)
            (findall root "ref") Dict.empty.

(** [Generator.load_grammar], after [_load] has parsed the document. *)
Definition load_grammar (root : element) : M R unit :=
  modify (set_grammar root) ;;
  modify (set_refs Dict.empty) ;;
  for_each (findall root "ref")
    (fun ref => modify (fun s => set_refs (Dict.set (get ref "id") ref (refs s)) s)).

(** [Generator.load_source], after [_load] has parsed the document. *)
Definition load_source (root : element) : M R unit :=
  modify (set_source root).

(** The dictionary [xrefs] that [get_default_source] fills. *)
Definition collect_xrefs (g : element) : Dict.t nat :=
  fold_left (fun d xref => Dict.set (get xref "id") 1 d)
            (findall_desc g "xref") Dict.empty.

(** The list [standalone_xrefs]: the keys of [refs], in their order, that
    are no key of [xrefs]. *)
Definition standalone (g : element) (rs : Dict.t element) : list pystr :=
  filter (fun e => negb (Dict.mem e (Dict.keys (collect_xrefs g))))
         (Dict.keys rs).

(** [Generator.get_default_source] *)
Definition get_default_source : M R string :=
  g <- read grammar ;;
  rs <- read refs ;;
  let standalone_xrefs := standalone g rs in
  match standalone_xrefs with
  | [] => raise ValueError
  | _ :: _ =>
      xrefid <- choice standalone_xrefs ;;
      ret (xref_source xrefid)
  end.

(** [Generator.reset] *)
Definition reset : M R unit :=
  modify (set_pieces []) ;;
  modify (set_capitalize_next_word false).

(** [Generator.output] *)
Definition output : M R string :=
  read (fun s => join (pieces s)).

(** [Generator.random_child_element]; the argument is [None] when
    [refs.get] found nothing, and [None.getchildren()] raises. *)
Definition random_child_element (node : option element) : M R element :=
  match node with
  | None => raise AttributeError
  | Some n => choice (children n)
  end.

(** [Generator.parse_xref], with [self.parse] as a parameter. *)
Definition parse_xref (parse : element -> M R unit) (node : element) : M R unit :=
  rs <- read refs ;;
  child <- random_child_element (Dict.get (get node "id") rs) ;;
  parse child ;;
  pieces_append (or_empty (tail node)).

(** [Generator.parse_p] *)
Definition parse_p (parse : element -> M R unit) (node : element) : M R unit :=
  pieces_append (or_empty (text node)) ;;
  for_each (children node) parse.

(** [Generator.parse]: [getattr(self, f"parse_{node.tag}")] finds a
    method for the tags xref and p, and raises for every other tag.  Each
    call of [parse] takes one unit of fuel, so the fuel bounds the depth
    of the recursion; [OutOfFuel] stands for a recursion that goes deeper.
    The stack of the model is as deep as the fuel: the limit that the
    interpreter puts on the recursion is left out. *)
Fixpoint parse (fuel : nat) (node : element) : M R unit :=
  match fuel with
  | O => fun _ => OutOfFuel
  | S fuel' =>
      if String.eqb (tag node) "xref" then parse_xref (parse fuel') node
      else if String.eqb (tag node) "p" then parse_p (parse fuel') node
      else raise AttributeError
  end.

(** [Generator.refresh] *)
Definition refresh (fuel : nat) : M R string :=
  reset ;;
  src <- read source ;;
  parse fuel src ;;
  output.

End Expansion.

Arguments choice {R} randbelow {A} seq w.

(** ** Reasoning about outcomes *)

(** [post o Q]: the state in which [o] leaves the object satisfies [Q]. *)
Definition post {R A} (o : outcome R A) (Q : world R -> Prop) : Prop :=
  match o with
  | Done _ w => Q w
  | Raise _ w => Q w
  | OutOfFuel => True
  end.

(** [returns o]: the call came back, with a value or an exception. *)
Definition returns {R A} (o : outcome R A) : Prop :=
  match o with
  | OutOfFuel => False
  | _ => True
  end.

Definition map_world {R A} (f : world R -> world R) (o : outcome R A)
  : outcome R A :=
  match o with
  | Done a w => Done a (f w)
  | Raise e w => Raise e (f w)
  | OutOfFuel => OutOfFuel
  end.

(** The read-only part of the object. *)
Definition frame {R} (w w' : world R) : Prop :=
  grammar (self w') = grammar (self w) /\
  refs (self w') = refs (self w) /\
  source (self w') = source (self w).

(** The accumulator only grows: [pieces] of [w'] starts with [pieces] of
    [w]. *)
Definition extends {R} (w w' : world R) : Prop :=
  exists added, pieces (self w') = pieces (self w) ++ added.

(** [keeps rel m]: a state related to [w0] stays related to [w0] across the
    call [m], whether it returns or raises. *)
Definition keeps {R A} (rel : world R -> world R -> Prop) (m : M R A) : Prop :=
  forall w0 w, rel w0 w -> post (m w) (rel w0).

(** [preserves m]: the call [m] leaves the read-only part as it found it. *)
Definition preserves {R A} (m : M R A) : Prop := keeps frame m.

(** [appends m]: the call [m] only appends to the accumulator. *)
Definition appends {R A} (m : M R A) : Prop := keeps extends m.


(** The same state with another value of [capitalize_next_word]. *)
Definition with_flag {R} (b : bool) (w : world R) : world R :=
  mkWorld (set_capitalize_next_word b (self w)) (rand w).

(** [flag_blind m]: the call [m] neither reads nor writes the flag: run
    from a state with another flag it does the same, and leaves the other
    flag in place. *)
Definition flag_blind {R A} (m : M R A) : Prop :=
  forall b w, m (with_flag b w) = map_world (with_flag b) (m w).

(** The last element of [rules], in document order, whose id is [k]. *)
Definition last_with_id (k : pystr) (rules : list element) : option element :=
  find (fun r => pystr_eqb k (get r "id")) (rev rules).

(** The ids that the references of a grammar point to: [xref.get("id")] for
    every xref element of the document. *)
Definition xref_targets (g : element) : list pystr :=
  map (fun x => get x "id") (findall_desc g "xref").

(** ** Documents used as examples *)

Definition leaf (t : string) (a : list (string * string)) (tx tl : pystr)
  : element :=
  Element t a tx tl [].

(** [<grammar><ref id="a"><p>one</p></ref><ref><p>two</p></ref>
    <ref id=''><p>three</p></ref><ref id="a"><p>four</p></ref></grammar>] *)
Definition ref_a_first : element :=
  Element "ref" [("id", "a")] None None [leaf "p" [] (Some "one") None].
Definition ref_no_id : element :=
  Element "ref" [] None None [leaf "p" [] (Some "two") None].
Definition ref_empty_id : element :=
  Element "ref" [("id", EmptyString)] None None
          [leaf "p" [] (Some "three") None].
Definition ref_a_last : element :=
  Element "ref" [("id", "a")] None None [leaf "p" [] (Some "four") None].
Definition grammar_repeated_ids : element :=
  Element "grammar" [] None None
          [ref_a_first; ref_no_id; ref_empty_id; ref_a_last].

(** [<grammar><ref id="x"/></grammar>]: a rule without paragraphs. *)
Definition ref_without_p : element := leaf "ref" [("id", "x")] None None.
Definition grammar_empty_rule : element :=
  Element "grammar" [] None None [ref_without_p].

(** An object whose attributes hold the given documents. *)
Definition generator_of (g src : element) : Generator :=
  mkGenerator g (load_refs g) src [] false.

(** A random source that always answers with the same index. *)
Definition always (i : nat) : unit -> nat -> nat * unit :=
  fun r _ => (i, r).

(** [<grammar><ref id="greeting"><p>hello</p></ref></grammar>] *)
Definition p_hello : element := leaf "p" [] (Some "hello") None.
Definition ref_greeting : element :=
  Element "ref" [("id", "greeting")] None None [p_hello].
Definition grammar_hello : element :=
  Element "grammar" [] None None [ref_greeting].

(** The element that the source [<xref id="k"/>] parses to. *)
Definition xref_to (k : string) : element :=
  leaf "xref" [("id", k)] None None.

(** [<grammar><ref id="root"><p><xref id="x"/>!</p></ref>
    <ref id="x"><p>hi</p></ref></grammar>] *)
Definition xref_x_bang : element := leaf "xref" [("id", "x")] None (Some "!").
Definition ref_root : element :=
  Element "ref" [("id", "root")] None None
          [Element "p" [] None None [xref_x_bang]].
Definition ref_x : element :=
  Element "ref" [("id", "x")] None None [leaf "p" [] (Some "hi") None].
Definition grammar_hi : element :=
  Element "grammar" [] None None [ref_root; ref_x].

(** ** Loading from a source

    What [open], [sys.stdin], [io.StringIO] and [etree.parse] do is not code
    of the repository.  A stream is an object with a [read] method; the
    model takes the type of streams and these four as parameters:
    [fs_open name] is what [open(name)] does, [stdin] is [sys.stdin],
    [StringIO text] is the stream that [io.StringIO(text)] makes, and
    [etree_parse sock] is what [etree.parse(sock, parser).getroot()] does on
    a stream: the root element, or the exception that came up while the
    stream was read or its content parsed, of whatever class.  A stream is
    taken as it is when it is handed over: what a second reading of the
    same stream object would find is not modelled. *)

(** What [open(name)] does: it opens a stream; or it raises [IOError] or
    [OSError], which [open_anything] catches; or it raises another
    exception (a [ValueError] for a name with a NUL character, ...), which
    [open_anything] lets pass. *)
Inductive open_result (S : Type) : Type :=
| Opened (sock : S)
| OpenOSError
| OpenRaises (e : exn).

Arguments OpenOSError {S}.
Arguments OpenRaises {S} e.

(** An argument of [open_anything]: an object with a [read] method, a
    string, or a [pathlib.Path] given by its [str] (what [main] passes for
    the grammar). *)
Inductive source_arg (S : Type) : Type :=
| Stream (sock : S)
| Name (s : string)
| PathName (p : string).

Arguments Name {S} s.
Arguments PathName {S} p.

(** [bool(source)] for [source] an argument or [None]. *)
Definition truthy {S} (source : option (source_arg S)) : bool :=
  match source with
  | None => false
  | Some (Stream _) => true
  | Some (Name s) => negb (String.eqb s EmptyString)
  | Some (PathName _) => true
  end.

Section Loading.

Variable R : Type.
Variable randbelow : R -> nat -> nat * R.
Variable S : Type.
Variable fs_open : string -> open_result S.
Variable stdin : S.
Variable StringIO : string -> S.
Variable etree_parse : S -> element + exn.

(** What [open_anything] does after the tests for a stream and for the
    string [-]: [open(source)], and when that raises [IOError] or [OSError]
    the [StringIO] of [str(source)]. *)
Definition open_or_text (name : string) : S + exn :=
  match fs_open name with
  | Opened sock => inl sock
  | OpenOSError => inl (StringIO name)
  | OpenRaises e => inr e
  end.

(** [open_anything]: the stream it returns, or the exception that [open]
    raised and it did not catch.  A [Path] is never equal to the string
    [-]. *)
Definition open_anything (source : source_arg S) : S + exn :=
  match source with
  | Stream sock => inl sock
  | Name s => if String.eqb s "-" then inl stdin else open_or_text s
  | PathName p => open_or_text p
  end.

(** [Generator._load] *)
Definition _load (stuff : source_arg S) : M R element :=
  match open_anything stuff with
  | inl sock =>
      match etree_parse sock with
      | inl root => ret root
      | inr e => raise e
      end
  | inr e => raise e
  end.

(** [Generator.__init__]: [load_grammar], [load_source] on the given source
    or on the default one, and [refresh]. *)
Definition init (fuel : nat) (grammar_arg : source_arg S)
           (source_arg_ : option (source_arg S)) : M R string :=
  root <- _load grammar_arg ;;
  load_grammar root ;;
  src <- match source_arg_ with
         | Some s => if truthy source_arg_ then ret s
                     else (d <- get_default_source randbelow ;; ret (Name d))
         | None => d <- get_default_source randbelow ;; ret (Name d)
         end ;;
  sroot <- _load src ;;
  load_source sroot ;;
  refresh randbelow fuel.

End Loading.

(** For the examples: streams that are texts held in memory, a file system
    in which [open] finds no file, and a stand-in for the parser that knows
    one document and raises [XMLSyntaxError] on every other text. *)
Definition text_stream : string -> string := fun text => text.

Definition no_files : string -> open_result string := fun _ => OpenOSError.

Definition parse_one_document (text : string) (root : element)
  : string -> element + exn :=
  fun s => if String.eqb s text then inl root else inr XMLSyntaxError.


(** ** The reference graph and the depth of the recursion *)

(** The ids of the references that [parse] expands inside a tree: the node
    itself when it is an xref, those of its children when it is a p. *)
Fixpoint targets (node : element) : list pystr :=
  if String.eqb (tag node) "xref" then [get node "id"]
  else if String.eqb (tag node) "p" then flat_map targets (children node)
  else [].

(** Rule [a] refers to rule [b]: an alternative of [a] holds a reference
    to [b]. *)
Definition edge (rs : Dict.t element) (a b : pystr) : Prop :=
  exists rule c,
    Dict.get a rs = Some rule /\ In c (children rule) /\ In b (targets c).

(** A chain of one or more references. *)
Inductive path (rs : Dict.t element) : pystr -> pystr -> Prop :=
| path_edge a b : edge rs a b -> path rs a b
| path_step a b c : edge rs a b -> path rs b c -> path rs a c.

(** No rule refers to itself, directly or through other rules. *)
Definition acyclic (rs : Dict.t element) : Prop :=
  forall a, ~ path rs a a.

(** The edges of the graph as a list, and a check that a ranking of the
    rules goes down along every edge. *)
Definition edges (rs : Dict.t element) : list (pystr * pystr) :=
  flat_map (fun kv => map (fun b => (fst kv, b))
                          (flat_map targets (children (snd kv)))) rs.

Definition ranked (rank : pystr -> nat) (rs : Dict.t element) : bool :=
  forallb (fun ab => Nat.ltb (rank (snd ab)) (rank (fst ab))) (edges rs).

(** The deepest nesting of calls of [parse] that a run from [node] can
    reach, over all the choices, explored down to [fuel] calls. *)
Fixpoint nesting (rs : Dict.t element) (fuel : nat) (node : element) : nat :=
  match fuel with
  | O => 0
  | S fuel' =>
      if String.eqb (tag node) "xref" then
        match Dict.get (get node "id") rs with
        | Some rule => S (list_max (map (nesting rs fuel') (children rule)))
        | None => 1
        end
      else if String.eqb (tag node) "p" then
        S (list_max (map (nesting rs fuel') (children node)))
      else 1
  end.

(** A bound on the nesting in a grammar without cycles: a chain of
    references passes through each rule once at most, and inside a rule it
    descends through one tree. *)
Definition max_rule_height (rs : Dict.t element) : nat :=
  list_max (map (fun kv => height (snd kv)) rs).

Definition nesting_bound (rs : Dict.t element) (node : element) : nat :=
  length (Dict.keys rs) * max_rule_height rs + height node.

(** The nesting depth of the grammar below [node]. *)
Definition nesting_depth (rs : Dict.t element) (node : element) : nat :=
  nesting rs (S (nesting_bound rs node)) node.

Definition returnsb {R A} (o : outcome R A) : bool :=
  match o with
  | OutOfFuel => false
  | _ => true
  end.

(** The depth that the recursion of one run reaches: the least fuel, up to
    [bound], with which the call comes back. *)
Definition recursion_depth {R} (randbelow : R -> nat -> nat * R)
           (bound : nat) (node : element) (w : world R) : option nat :=
  find (fun d => returnsb (parse randbelow d node w)) (seq 0 (S bound)).

(** [<grammar><ref id="r"><p>a</p><p><xref id="s"/></p></ref>
    <ref id="s"><p>b</p></ref></grammar>]: the first alternative of [r] is
    shallow, the second one refers to [s]. *)
Definition ref_r : element :=
  Element "ref" [("id", "r")] None None
          [leaf "p" [] (Some "a") None;
           Element "p" [] None None [xref_to "s"]].
Definition ref_s : element :=
  Element "ref" [("id", "s")] None None [leaf "p" [] (Some "b") None].
Definition grammar_two_depths : element :=
  Element "grammar" [] None None [ref_r; ref_s].

(** The ranking of the rules of [grammar_two_depths]: [r] above [s]. *)
Definition rank_r_s (k : pystr) : nat :=
  if pystr_eqb k (Some "r") then 1 else 0.

(** [<grammar><ref id="a"><p><xref id="b"/></p></ref>
    <ref id="b"><p><xref id="a"/></p></ref></grammar>]: two rules that refer
    to each other. *)
Definition p_to (k : string) : element :=
  Element "p" [] None None [xref_to k].
Definition ref_a : element := Element "ref" [("id", "a")] None None [p_to "b"].
Definition ref_b : element := Element "ref" [("id", "b")] None None [p_to "a"].
Definition grammar_mutual : element :=
  Element "grammar" [] None None [ref_a; ref_b].

(** The text of [grammar_mutual], and the stand-in for the parser that
    knows it. *)
Definition text_mutual : string :=
  "<grammar><ref id='a'><p><xref id='b'/></p></ref><ref id='b'><p><xref id='a'/></p></ref></grammar>".

Definition parse_mutual : string -> element + exn :=
  parse_one_document text_mutual grammar_mutual.

(** ** The texts of a grammar

    [expands rs node ps]: the pieces [ps] are one way to expand [node] with
    the rules [rs]: a paragraph gives its text and then what its children
    give, in document order; a reference gives what one alternative of its
    rule gives and then its own tail. *)
Inductive expands (rs : Dict.t element) : element -> list string -> Prop :=
| expands_xref node rule alternative ps :
    tag node = "xref" ->
    Dict.get (get node "id") rs = Some rule ->
    In alternative (children rule) ->
    expands rs alternative ps ->
    expands rs node (ps ++ [or_empty (tail node)])
| expands_p node ps :
    tag node = "p" ->
    expands_all rs (children node) ps ->
    expands rs node (or_empty (text node) :: ps)
with expands_all (rs : Dict.t element) : list element -> list string -> Prop :=
| expands_nil : expands_all rs [] []
| expands_cons c cs ps qs :
    expands rs c ps ->
    expands_all rs cs qs ->
    expands_all rs (c :: cs) (ps ++ qs).

Scheme expands_mut := Induction for expands Sort Prop
  with expands_all_mut := Induction for expands_all Sort Prop.

(** A random source that replays a list of answers, and answers 0 when the
    list is used up. *)
Definition replay (answers : list nat) (n : nat) : nat * list nat :=
  match answers with
  | [] => (0, [])
  | i :: rest => (i, rest)
  end.

(** ** Grammars on which the expansion cannot raise *)

(** Every element that [parse] meets in the tree is a p or an xref, and
    every xref names a rule. *)
Fixpoint expandable (rs : Dict.t element) (node : element) : bool :=
  if String.eqb (tag node) "xref" then Dict.mem (get node "id") (Dict.keys rs)
  else if String.eqb (tag node) "p" then forallb (expandable rs) (children node)
  else false.

(** Every rule has an alternative, and every alternative is expandable. *)
Definition rules_expandable (rs : Dict.t element) : bool :=
  forallb (fun kv => match children (snd kv) with
                     | [] => false
                     | c :: cs => forallb (expandable rs) (c :: cs)
                     end) rs.

(** ** Trees that the expansion cannot get through *)

(** An element that is neither a p nor an xref stands where [parse] comes
    by: the node itself, or a child of a p, and so on. *)
Fixpoint unknown_inside (node : element) : bool :=
  if String.eqb (tag node) "xref" then false
  else if String.eqb (tag node) "p" then existsb unknown_inside (children node)
  else true.

(** The node is a reference, or holds one where [parse] comes by, or holds
    an element that [parse] does not know. *)
Fixpoint needs_a_rule (node : element) : bool :=
  if String.eqb (tag node) "xref" then true
  else if String.eqb (tag node) "p" then existsb needs_a_rule (children node)
  else true.

(** No rule has an alternative of literal text only. *)
Definition no_literal_alternative (rs : Dict.t element) : bool :=
  forallb (fun kv => forallb needs_a_rule (children (snd kv))) rs.

(** [<p>a<b/></p>]: a paragraph that holds an element other than xref
    and p. *)
Definition p_with_b : element :=
  Element "p" [] (Some "a") None [leaf "b" [] None None].
(** * Properties *)

(** ** Python values and element trees *)

Lemma pystr_eqb_spec (a b : pystr) : reflect (a = b) (pystr_eqb a b).
Proof.
  destruct a as [x|], b as [y|]; simpl; try (constructor; congruence).
  destruct (String.eqb_spec x y); constructor; congruence.
Qed.

Lemma pystr_eqb_refl (a : pystr) : pystr_eqb a a = true.
Proof. destruct (pystr_eqb_spec a a); congruence. Qed.

Lemma pystr_eqb_eq (a b : pystr) : pystr_eqb a b = true <-> a = b.
Proof. destruct (pystr_eqb_spec a b); split; congruence. Qed.

Lemma pystr_eqb_neq (a b : pystr) : pystr_eqb a b = false <-> a <> b.
Proof. destruct (pystr_eqb_spec a b); split; congruence. Qed.

Lemma pystr_eq_dec (a b : pystr) : {a = b} + {a <> b}.
Proof. destruct (pystr_eqb_spec a b); [left | right]; assumption. Defined.

(** The induction principle that reaches the children. *)
Lemma element_rect' (P : element -> Prop) :
  (forall t a tx tl cs, Forall P cs -> P (Element t a tx tl cs)) ->
  forall e, P e.
Proof.
  intros H.
  fix IH 1.
  intros [t a tx tl cs]. apply H.
  induction cs as [|c cs IHcs]; constructor.
  - apply IH.
  - exact IHcs.
Qed.

(** ** What a call keeps: the read-only part, the accumulated pieces *)

Lemma frame_refl {R} (w : world R) : frame w w.
Proof. repeat split. Qed.

Lemma frame_trans {R} (w1 w2 w3 : world R) :
  frame w1 w2 -> frame w2 w3 -> frame w1 w3.
Proof. unfold frame. intuition congruence. Qed.

Lemma extends_refl {R} (w : world R) : extends w w.
Proof. exists []. now rewrite app_nil_r. Qed.

Lemma keeps_bind {R A B} rel (m : M R A) (k : A -> M R B) :
  keeps rel m -> (forall a, keeps rel (k a)) -> keeps rel (bind m k).
Proof.
  intros Hm Hk w0 w Hw. unfold bind.
  specialize (Hm w0 w Hw).
  destruct (m w) as [a w'|e w'|]; simpl in *; auto.
  now apply Hk.
Qed.

Lemma keeps_ret {R A} rel (a : A) : keeps rel (@ret R A a).
Proof. intros w0 w Hw. exact Hw. Qed.

Lemma keeps_raise {R A} rel (e : exn) : keeps rel (@raise R A e).
Proof. intros w0 w Hw. exact Hw. Qed.

Lemma keeps_read {R A} rel (f : Generator -> A) : keeps rel (@read R A f).
Proof. intros w0 w Hw. exact Hw. Qed.

Lemma keeps_for_each {R A} rel (body : A -> M R unit) (xs : list A) :
  (forall x, keeps rel (body x)) -> keeps rel (for_each xs body).
Proof.
  intros Hbody. induction xs as [|x xs IH]; simpl.
  - apply keeps_ret.
  - apply keeps_bind; auto.
Qed.

Lemma preserves_modify {R} (f : Generator -> Generator) :
  (forall s, grammar (f s) = grammar s /\ refs (f s) = refs s /\
             source (f s) = source s) ->
  preserves (@modify R f).
Proof.
  intros Hf w0 w (Hg & Hr & Hs). unfold modify, frame. simpl.
  destruct (Hf (self w)) as (Hg' & Hr' & Hs').
  repeat split; congruence.
Qed.

Lemma preserves_pieces_append {R} (x : string) :
  preserves (@pieces_append R x).
Proof. apply preserves_modify. intros s. repeat split. Qed.

Lemma appends_pieces_append {R} (x : string) : appends (@pieces_append R x).
Proof.
  intros w0 w [added H]. exists (added ++ [x]). simpl.
  rewrite H. now rewrite app_assoc.
Qed.

Lemma preserves_reset {R} : preserves (@reset R).
Proof.
  apply keeps_bind; [|intros _];
    apply preserves_modify; intros s; repeat split.
Qed.

Section Keeps.

Variable R : Type.
Variable randbelow : R -> nat -> nat * R.

(** [choice] changes the random source and nothing of the object. *)
Lemma keeps_choice rel {A} (seq : list A) :
  (forall w0 w r, rel w0 w -> rel w0 (mkWorld (self w) r)) ->
  keeps rel (choice randbelow seq).
Proof.
  intros Hrel w0 w Hw. unfold choice. destruct seq as [|x seq]; simpl; auto.
  destruct (randbelow (rand w) (S (length seq))) as [i r]. simpl. auto.
Qed.

Lemma frame_rand (w0 w : world R) (r : R) :
  frame w0 w -> frame w0 (mkWorld (self w) r).
Proof. auto. Qed.

Lemma extends_rand (w0 w : world R) (r : R) :
  extends w0 w -> extends w0 (mkWorld (self w) r).
Proof. auto. Qed.

Lemma keeps_random_child_element rel (node : option element) :
  (forall w0 w r, rel w0 w -> rel w0 (mkWorld (self w) r)) ->
  keeps rel (random_child_element randbelow node).
Proof.
  intros Hrel. destruct node as [n|]; simpl.
  - now apply keeps_choice.
  - apply keeps_raise.
Qed.

(** The expansion keeps every relation that drawing and appending keep. *)
Lemma keeps_parse rel :
  (forall w0 w r, rel w0 w -> rel w0 (mkWorld (self w) r)) ->
  (forall x, keeps rel (@pieces_append R x)) ->
  forall fuel node, keeps rel (parse randbelow fuel node).
Proof.
  intros Hrand Happ fuel.
  induction fuel as [|fuel IH]; intros node; simpl.
  - intros w0 w _. exact I.
  - destruct (String.eqb (tag node) "xref").
    + apply keeps_bind; [apply keeps_read | intros rs].
      apply keeps_bind;
        [now apply keeps_random_child_element | intros child].
      apply keeps_bind; [apply IH | intros _].
      apply Happ.
    + destruct (String.eqb (tag node) "p").
      * apply keeps_bind; [apply Happ | intros _].
        apply keeps_for_each. exact IH.
      * apply keeps_raise.
Qed.

Lemma preserves_parse (fuel : nat) (node : element) :
  preserves (parse randbelow fuel node).
Proof.
  apply keeps_parse; [apply frame_rand | apply preserves_pieces_append].
Qed.

Lemma appends_parse (fuel : nat) (node : element) :
  appends (parse randbelow fuel node).
Proof.
  apply keeps_parse; [apply extends_rand | apply appends_pieces_append].
Qed.

Lemma preserves_refresh (fuel : nat) : preserves (refresh randbelow fuel).
Proof.
  apply keeps_bind; [apply preserves_reset | intros _].
  apply keeps_bind; [apply keeps_read | intros src].
  apply keeps_bind; [apply preserves_parse | intros _].
  apply keeps_read.
Qed.

End Keeps.

(** ** The flag [capitalize_next_word] *)

Lemma flag_blind_bind {R A B} (m : M R A) (k : A -> M R B) :
  flag_blind m -> (forall a, flag_blind (k a)) -> flag_blind (bind m k).
Proof.
  intros Hm Hk b w. unfold bind. rewrite Hm.
  destruct (m w) as [a w'|e w'|]; simpl; auto.
  rewrite Hk. reflexivity.
Qed.

Lemma flag_blind_ret {R A} (a : A) : flag_blind (@ret R A a).
Proof. intros b w. reflexivity. Qed.

Lemma flag_blind_raise {R A} (e : exn) : flag_blind (@raise R A e).
Proof. intros b w. reflexivity. Qed.

Lemma flag_blind_for_each {R A} (body : A -> M R unit) (xs : list A) :
  (forall x, flag_blind (body x)) -> flag_blind (for_each xs body).
Proof.
  intros Hbody. induction xs as [|x xs IH]; simpl.
  - apply flag_blind_ret.
  - apply flag_blind_bind; auto.
Qed.

Lemma flag_blind_read_refs {R} : flag_blind (@read R _ refs).
Proof. intros b w. reflexivity. Qed.

Lemma flag_blind_pieces_append {R} (x : string) :
  flag_blind (@pieces_append R x).
Proof. intros b w. reflexivity. Qed.

Section Flag.

Variable R : Type.
Variable randbelow : R -> nat -> nat * R.

Lemma flag_blind_choice {A} (seq : list A) :
  flag_blind (choice randbelow seq).
Proof.
  intros b w. unfold choice. destruct seq as [|x seq]; simpl; auto.
  destruct (randbelow (rand w) (S (length seq))) as [i r]. reflexivity.
Qed.

Lemma flag_blind_random_child_element (node : option element) :
  flag_blind (random_child_element randbelow node).
Proof.
  destruct node as [n|]; simpl.
  - apply flag_blind_choice.
  - apply flag_blind_raise.
Qed.

Lemma flag_blind_parse (fuel : nat) :
  forall node, flag_blind (parse randbelow fuel node).
Proof.
  induction fuel as [|fuel IH]; intros node; simpl.
  - intros b w. reflexivity.
  - destruct (String.eqb (tag node) "xref").
    + apply flag_blind_bind; [apply flag_blind_read_refs | intros rs].
      apply flag_blind_bind;
        [apply flag_blind_random_child_element | intros child].
      apply flag_blind_bind; [apply IH | intros _].
      apply flag_blind_pieces_append.
    + destruct (String.eqb (tag node) "p").
      * apply flag_blind_bind; [apply flag_blind_pieces_append | intros _].
        apply flag_blind_for_each. exact IH.
      * apply flag_blind_raise.
Qed.

Lemma reset_with_flag (b : bool) (w : world R) :
  reset (with_flag b w) = reset w.
Proof. reflexivity. Qed.

Lemma refresh_with_flag (fuel : nat) (b : bool) (w : world R) :
  refresh randbelow fuel (with_flag b w) = refresh randbelow fuel w.
Proof.
  unfold refresh. unfold bind at 1 3. rewrite reset_with_flag. reflexivity.
Qed.

End Flag.

(** ** Dictionaries *)

Module DictFacts.

Lemma get_set_same {V} (k : pystr) (v : V) (d : Dict.t V) :
  Dict.get k (Dict.set k v d) = Some v.
Proof.
  induction d as [|[k' v'] d IH]; simpl.
  - now rewrite pystr_eqb_refl.
  - destruct (pystr_eqb k k') eqn:E; simpl; rewrite E; auto.
Qed.

Lemma get_set_other {V} (k k' : pystr) (v : V) (d : Dict.t V) :
  k <> k' -> Dict.get k (Dict.set k' v d) = Dict.get k d.
Proof.
  intros Hne. induction d as [|[k0 v0] d IH]; simpl.
  - apply pystr_eqb_neq in Hne. now rewrite Hne.
  - destruct (pystr_eqb k' k0) eqn:E; simpl.
    + apply pystr_eqb_eq in E. subst k0.
      apply pystr_eqb_neq in Hne. now rewrite Hne.
    + now rewrite IH.
Qed.

Lemma get_set {V} (k k' : pystr) (v : V) (d : Dict.t V) :
  Dict.get k (Dict.set k' v d) =
  if pystr_eqb k k' then Some v else Dict.get k d.
Proof.
  destruct (pystr_eqb_spec k k') as [->|Hne].
  - apply get_set_same.
  - now apply get_set_other.
Qed.

Lemma mem_In (k : pystr) (ks : list pystr) :
  Dict.mem k ks = true <-> In k ks.
Proof.
  unfold Dict.mem. rewrite existsb_exists. split.
  - intros (x & Hx & E). apply pystr_eqb_eq in E. now subst.
  - intros H. exists k. split; [assumption | apply pystr_eqb_refl].
Qed.

Lemma In_keys_set {V} (k k' : pystr) (v : V) (d : Dict.t V) :
  In k (Dict.keys (Dict.set k' v d)) <-> k = k' \/ In k (Dict.keys d).
Proof.
  induction d as [|[k0 v0] d IH]; simpl.
  - intuition congruence.
  - destruct (pystr_eqb_spec k' k0) as [->|Hne]; simpl.
    + intuition congruence.
    + rewrite IH. intuition congruence.
Qed.

Lemma NoDup_keys_set {V} (k : pystr) (v : V) (d : Dict.t V) :
  NoDup (Dict.keys d) -> NoDup (Dict.keys (Dict.set k v d)).
Proof.
  induction d as [|[k0 v0] d IH]; simpl; intros Hnd.
  - constructor; [intros [] | constructor].
  - inversion Hnd as [|? ? Hnotin Hnd']; subst.
    destruct (pystr_eqb_spec k k0) as [->|Hne]; simpl.
    + now constructor.
    + constructor; [|now apply IH].
      intros Hin. apply In_keys_set in Hin. destruct Hin; congruence.
Qed.

Lemma get_None {V} (k : pystr) (d : Dict.t V) :
  Dict.get k d = None <-> ~ In k (Dict.keys d).
Proof.
  induction d as [|[k0 v0] d IH]; simpl.
  - intuition.
  - destruct (pystr_eqb_spec k k0) as [->|Hne].
    + split; [discriminate | intros H; exfalso; apply H; now left].
    + rewrite IH. intuition congruence.
Qed.

Lemma get_Some_In {V} (k : pystr) (v : V) (d : Dict.t V) :
  Dict.get k d = Some v -> In k (Dict.keys d).
Proof.
  intros H. destruct (in_dec pystr_eq_dec k (Dict.keys d)) as [|Hn]; auto.
  apply get_None in Hn. congruence.
Qed.

(** A loop of assignments [d[key x] = val x]. *)
Lemma In_keys_fold {A V} (key : A -> pystr) (val : A -> V) (xs : list A) :
  forall (d : Dict.t V) k,
    In k (Dict.keys (fold_left (fun d x => Dict.set (key x) (val x) d) xs d))
    <-> In k (map key xs) \/ In k (Dict.keys d).
Proof.
  induction xs as [|x xs IH]; intros d k; simpl.
  - intuition.
  - rewrite IH, In_keys_set. intuition.
Qed.

Lemma NoDup_keys_fold {A V} (key : A -> pystr) (val : A -> V) (xs : list A) :
  forall d : Dict.t V,
    NoDup (Dict.keys d) ->
    NoDup (Dict.keys (fold_left (fun d x => Dict.set (key x) (val x) d) xs d)).
Proof.
  induction xs as [|x xs IH]; intros d Hd; simpl; auto.
  apply IH. now apply NoDup_keys_set.
Qed.

Lemma get_fold {A V} (key : A -> pystr) (val : A -> V) (xs : list A) :
  forall (d : Dict.t V) k,
    Dict.get k (fold_left (fun d x => Dict.set (key x) (val x) d) xs d) =
    match find (fun x => pystr_eqb k (key x)) (rev xs) with
    | Some x => Some (val x)
    | None => Dict.get k d
    end.
Proof.
  induction xs as [|x xs IH] using rev_ind; intros d k; simpl; auto.
  rewrite fold_left_app, rev_app_distr. simpl.
  rewrite get_set. destruct (pystr_eqb k (key x)); auto.
Qed.

End DictFacts.

(** ** Loading *)

Lemma for_each_modify {R A} (f : A -> Generator -> Generator) (xs : list A) :
  forall w : world R,
    for_each xs (fun x => modify (f x)) w =
    Done tt (mkWorld (fold_left (fun s x => f x s) xs (self w)) (rand w)).
Proof.
  induction xs as [|x xs IH]; intros w; simpl.
  - unfold ret. now destruct w.
  - unfold bind. simpl. now rewrite IH.
Qed.

Lemma fold_set_refs {A} (key : A -> pystr) (val : A -> element)
      (xs : list A) :
  forall s : Generator,
    fold_left (fun s x => set_refs (Dict.set (key x) (val x) (refs s)) s) xs s
    = set_refs (fold_left (fun d x => Dict.set (key x) (val x) d) xs (refs s)) s.
Proof.
  induction xs as [|x xs IH]; intros s; simpl.
  - now destruct s.
  - rewrite IH. reflexivity.
Qed.

(** [load_grammar] always returns; it stores the root and the dictionary
    [load_refs], and touches nothing else. *)
Lemma load_grammar_eq {R} (root : element) (w : world R) :
  load_grammar root w =
  Done tt (mkWorld (set_refs (load_refs root) (set_grammar root (self w)))
                   (rand w)).
Proof.
  unfold load_grammar, bind. simpl.
  rewrite for_each_modify. simpl.
  rewrite (fold_set_refs (fun r => get r "id") (fun r => r)).
  reflexivity.
Qed.

Lemma load_refs_get (root : element) (k : pystr) :
  Dict.get k (load_refs root) = last_with_id k (findall root "ref").
Proof.
  unfold load_refs, last_with_id.
  rewrite (DictFacts.get_fold (fun r => get r "id") (fun r => r)).
  destruct (find _ _); reflexivity.
Qed.

Lemma load_refs_keys (root : element) (k : pystr) :
  In k (Dict.keys (load_refs root)) <->
  In k (map (fun r => get r "id") (findall root "ref")).
Proof.
  unfold load_refs.
  rewrite (DictFacts.In_keys_fold (fun r => get r "id") (fun r => r)).
  simpl. intuition.
Qed.

Lemma load_refs_NoDup (root : element) : NoDup (Dict.keys (load_refs root)).
Proof.
  unfold load_refs.
  apply (DictFacts.NoDup_keys_fold (fun r => get r "id") (fun r => r)).
  constructor.
Qed.

Lemma last_with_id_Some (k : pystr) (rules : list element) (r : element) :
  last_with_id k rules = Some r -> In r rules /\ get r "id" = k.
Proof.
  unfold last_with_id. intros H. apply find_some in H. destruct H as [Hin E].
  apply pystr_eqb_eq in E. split; [now apply in_rev | congruence].
Qed.

(** ** The default source *)

Lemma collect_xrefs_keys (g : element) (k : pystr) :
  In k (Dict.keys (collect_xrefs g)) <-> In k (xref_targets g).
Proof.
  unfold collect_xrefs, xref_targets.
  rewrite (DictFacts.In_keys_fold (fun x => get x "id") (fun _ => 1)).
  simpl. intuition.
Qed.

Lemma standalone_spec (g : element) (rs : Dict.t element) (e : pystr) :
  In e (standalone g rs) <->
  In e (Dict.keys rs) /\ ~ In e (xref_targets g).
Proof.
  unfold standalone. rewrite filter_In, negb_true_iff.
  rewrite <- collect_xrefs_keys.
  destruct (Dict.mem e (Dict.keys (collect_xrefs g))) eqn:E.
  - apply DictFacts.mem_In in E. split.
    + intros [_ H]. discriminate H.
    + intros [_ H]. contradiction.
  - split; intros [H _]; (split; [exact H|]); [|reflexivity].
    intros Hin. apply DictFacts.mem_In in Hin. congruence.
Qed.

Lemma choice_nonempty {R} (randbelow : R -> nat -> nat * R) {A}
      (x : A) (xs : list A) (w : world R) :
  exists y r, In y (x :: xs) /\
              choice randbelow (x :: xs) w = Done y (mkWorld (self w) r).
Proof.
  unfold choice.
  destruct (randbelow (rand w) (length (x :: xs))) as [i r].
  exists (nth (i mod length (x :: xs)) (x :: xs) x), r. split; auto.
  apply nth_In. apply Nat.mod_upper_bound. simpl. lia.
Qed.

(** ** The claims about the grammar store *)


(** C4, as amended.  A reference whose id is no key of the rule dictionary
    raises at once ([AttributeError], the object as it was); a reference
    whose id is a key draws from the children of the rule element, a child
    of that rule when there is one and [IndexError] when the rule is empty.
    Nothing makes the children non-empty. *)
Theorem C4_lookup_of_alternatives
        (R : Type) (randbelow : R -> nat -> nat * R)
        (parse_ : element -> M R unit) (node : element) (w : world R) :
  match Dict.get (get node "id") (refs (self w)) with
  | None => parse_xref randbelow parse_ node w = Raise AttributeError w
  | Some rule =>
      match children rule with
      | [] => parse_xref randbelow parse_ node w = Raise IndexError w
      | _ :: _ =>
          exists p r,
            In p (children rule) /\
            random_child_element randbelow (Some rule) w =
            Done p (mkWorld (self w) r) /\
            parse_xref randbelow parse_ node w =
            ((parse_ p ;; pieces_append (or_empty (tail node)))%py
               (mkWorld (self w) r))
      end
  end.
Proof.
  unfold parse_xref, bind, read, random_child_element.
  destruct (Dict.get (get node "id") (refs (self w))) as [rule|];
    [|reflexivity].
  destruct (children rule) as [|c cs] eqn:E; [reflexivity|].
  destruct (choice_nonempty randbelow c cs w) as (y & r & Hy & Hc).
  exists y, r. split; [exact Hy|]. rewrite Hc. split; reflexivity.
Qed.

(** C4, the claim as stated fails: the document
    [<grammar><ref id="x"/></grammar>] loads, its dictionary has the key
    [x], and the rule found under [x] has no paragraph to choose from. *)
Lemma C4_loaded_rule_may_be_empty :
  let w := mkWorld (generator_of grammar_empty_rule
                                 (leaf "xref" [("id", "x")] None None)) tt in
  load_grammar grammar_empty_rule w = Done tt w /\
  Dict.get (Some "x") (refs (self w)) = Some ref_without_p /\
  children ref_without_p = [] /\
  parse (always 0) 5 (source (self w)) w = Raise IndexError w.
Proof. repeat split. Qed.

(** C7, as amended.  The keys of the loaded dictionary are pairwise
    distinct; they are exactly the values of [get("id")] on the top-level
    ref elements, [None] and the empty string included; and a key is bound
    to the last ref element that carries it. *)
Theorem C7_loaded_ids
        (R : Type) (root : element) (w : world R) :
  exists w',
    load_grammar root w = Done tt w' /\
    refs (self w') = load_refs root /\
    NoDup (Dict.keys (refs (self w'))) /\
    (forall k, In k (Dict.keys (refs (self w'))) <->
               exists r, In r (findall root "ref") /\ get r "id" = k) /\
    (forall k, Dict.get k (refs (self w')) =
               last_with_id k (findall root "ref")).
Proof.
  rewrite load_grammar_eq. eexists. split; [reflexivity|]. simpl.
  split; [reflexivity|]. split; [apply load_refs_NoDup|]. split.
  - intros k. rewrite load_refs_keys, in_map_iff.
    split; intros (r & H1 & H2); exists r; auto.
  - intros k. apply load_refs_get.
Qed.

(** C7, the claim as stated fails: of the four rules of
    [grammar_repeated_ids] three are kept, the first rule [a] is dropped,
    and the keys [None] (no id) and the empty string are in the
    dictionary. *)
Lemma C7_ids_missing_empty_or_repeated :
  length (findall grammar_repeated_ids "ref") = 4 /\
  Dict.keys (load_refs grammar_repeated_ids) =
    [Some "a"; None; Some EmptyString] /\
  ~ In ref_a_first (map snd (load_refs grammar_repeated_ids)).
Proof.
  split; [reflexivity|]. split; [reflexivity|].
  simpl. intros [H|[H|[H|[]]]]; discriminate.
Qed.

(** C10.  Loading succeeds, and when two top-level ref elements carry the
    same id the dictionary binds the id to the last one in document order:
    the later rule replaces the earlier one. *)
Theorem C10_last_rule_wins
        (R : Type) (root : element) (w : world R)
        (pre mid post : list element) (earlier later : element) :
  findall root "ref" = pre ++ earlier :: mid ++ later :: post ->
  get earlier "id" = get later "id" ->
  (forall r, In r post -> get r "id" <> get later "id") ->
  exists w',
    load_grammar root w = Done tt w' /\
    Dict.get (get later "id") (refs (self w')) = Some later.
Proof.
  intros Hdoc _ Hpost.
  rewrite load_grammar_eq. eexists. split; [reflexivity|]. simpl.
  rewrite load_refs_get, Hdoc. unfold last_with_id.
  replace (pre ++ earlier :: mid ++ later :: post)
    with ((pre ++ earlier :: mid) ++ later :: post)
    by (rewrite <- app_assoc; reflexivity).
  rewrite rev_app_distr. simpl. rewrite <- app_assoc. simpl.
  assert (Hnone : forall r, In r (rev post) ->
                            pystr_eqb (get later "id") (get r "id") = false).
  { intros r Hin. apply pystr_eqb_neq. apply in_rev in Hin.
    intros E. apply (Hpost r Hin). congruence. }
  induction (rev post) as [|r rs IH]; simpl in *.
  - now rewrite pystr_eqb_refl.
  - rewrite (Hnone r) by now left. apply IH. intros r' Hr'. apply Hnone.
    now right.
Qed.

Lemma C10_last_rule_wins_witness :
  exists w',
    load_grammar grammar_repeated_ids
                 (mkWorld (generator_of grammar_hello (xref_to "a")) tt)
    = Done tt w' /\
    Dict.get (Some "a") (refs (self w')) = Some ref_a_last.
Proof.
  apply (@C10_last_rule_wins unit grammar_repeated_ids
           (mkWorld (generator_of grammar_hello (xref_to "a")) tt)
           [] [ref_no_id; ref_empty_id] [] ref_a_first ref_a_last).
  - reflexivity.
  - reflexivity.
  - intros r [].
Defined.

(** ** The claims about the expander *)

Lemma bind_Done {R A B} (m : M R A) (k : A -> M R B) (w w1 : world R) (a : A) :
  m w = Done a w1 -> bind m k w = k a w1.
Proof. intros H. unfold bind. now rewrite H. Qed.

Lemma parse_S_xref {R} (randbelow : R -> nat -> nat * R) (fuel : nat)
      (node : element) :
  tag node = "xref" ->
  parse randbelow (S fuel) node = parse_xref randbelow (parse randbelow fuel) node.
Proof. intros H. simpl. now rewrite H. Qed.

Lemma parse_S_p {R} (randbelow : R -> nat -> nat * R) (fuel : nat)
      (node : element) :
  tag node = "p" ->
  parse randbelow (S fuel) node = parse_p (parse randbelow fuel) node.
Proof. intros H. simpl. now rewrite H. Qed.

Lemma choice_singleton {R} (randbelow : R -> nat -> nat * R) {A}
      (x : A) (w : world R) :
  choice randbelow [x] w =
  Done x (mkWorld (self w) (snd (randbelow (rand w) 1))).
Proof.
  unfold choice. simpl. destruct (randbelow (rand w) 1) as [i r]. simpl.
  now destruct i.
Qed.

(** A reference to a rule with one alternative expands that alternative. *)
Lemma parse_xref_singleton {R} (randbelow : R -> nat -> nat * R)
      (parse_ : element -> M R unit) (node rule p : element) (w : world R) :
  Dict.get (get node "id") (refs (self w)) = Some rule ->
  children rule = [p] ->
  parse_xref randbelow parse_ node w =
  (parse_ p ;; pieces_append (or_empty (tail node)))%py
    (mkWorld (self w) (snd (randbelow (rand w) 1))).
Proof.
  intros Hget Hp. unfold parse_xref, bind, read, random_child_element.
  rewrite Hget, Hp, choice_singleton. reflexivity.
Qed.

Lemma append_empty_r (s : string) : (s ++ EmptyString)%string = s.
Proof. induction s as [|c s IH]; simpl; congruence. Qed.

(** The runs of a grammar whose only element is one rule with one paragraph
    of literal text. *)
Section SingleRule.

Variable R : Type.
Variable randbelow : R -> nat -> nat * R.
Variables g r p : element.
Hypothesis Hg : children g = [r].
Hypothesis Hr : tag r = "ref".
Hypothesis Hrp : children r = [p].
Hypothesis Hp : tag p = "p".
Hypothesis Hpc : children p = [].

Lemma single_rule_refs : load_refs g = [(get r "id", r)].
Proof.
  unfold load_refs, findall. rewrite Hg. simpl. now rewrite Hr.
Qed.

Lemma single_rule_standalone : standalone g (load_refs g) = [get r "id"].
Proof.
  rewrite single_rule_refs.
  unfold standalone, collect_xrefs, findall_desc.
  destruct g as [gt ga gtx gtl gcs]. simpl in Hg. subst gcs.
  destruct r as [rt ra rtx rtl rcs]. simpl in Hrp, Hr. subst rcs rt.
  destruct p as [pt pa ptx ptl pcs]. simpl in Hp, Hpc. subst pcs pt.
  reflexivity.
Qed.

Lemma single_rule_default (s : Generator) (rnd : R) :
  grammar s = g -> refs s = load_refs g ->
  get_default_source randbelow (mkWorld s rnd) =
  Done (xref_source (get r "id")) (mkWorld s (snd (randbelow rnd 1))).
Proof.
  intros Hgs Hrs. unfold get_default_source, bind, read.
  cbn [self]. rewrite Hgs, Hrs, single_rule_standalone, choice_singleton.
  reflexivity.
Qed.

Lemma single_rule_refresh (src : element) (s : Generator) (rnd : R)
      (fuel : nat) :
  tag src = "xref" -> get src "id" = get r "id" -> tail src = None ->
  refs s = load_refs g -> source s = src ->
  refresh randbelow (2 + fuel) (mkWorld s rnd) =
  Done (or_empty (text p))
       (mkWorld (set_pieces [or_empty (text p); EmptyString]
                            (set_capitalize_next_word false s))
                (snd (randbelow rnd 1))).
Proof.
  intros Hsrc Hid Htail Hrs Hs.
  unfold refresh. erewrite bind_Done by reflexivity.
  erewrite bind_Done by reflexivity.
  cbn [self rand source set_pieces set_capitalize_next_word].
  rewrite Hs. change (2 + fuel) with (S (S fuel)).
  rewrite parse_S_xref by exact Hsrc.
  unfold bind at 1.
  rewrite (parse_xref_singleton randbelow _ src (rule := r) (p := p));
    [|cbn [self refs set_pieces set_capitalize_next_word];
      rewrite Hid, Hrs, single_rule_refs; simpl;
      now rewrite pystr_eqb_refl
     |exact Hrp].
  rewrite parse_S_p by exact Hp.
  unfold parse_p. rewrite Hpc, Htail.
  unfold bind, pieces_append, modify, for_each, ret, output, read.
  cbn. now rewrite append_empty_r.
Qed.

End SingleRule.

(** C1.  In a grammar whose only element is one rule with one paragraph of
    literal text, the default source is the reference to that rule, and
    expanding a reference to the rule returns the text of the paragraph,
    whatever the random source answers. *)
Theorem C1_single_literal_rule
        (R : Type) (randbelow : R -> nat -> nat * R) (w : world R)
        (g r p src : element) (fuel : nat) :
  children g = [r] -> tag r = "ref" ->
  children r = [p] -> tag p = "p" -> children p = [] ->
  tag src = "xref" -> get src "id" = get r "id" -> tail src = None ->
  (exists w',
      (load_grammar g ;; get_default_source randbelow)%py w =
      Done (xref_source (get r "id")) w') /\
  (exists w',
      (load_grammar g ;; load_source src ;;
       refresh randbelow (2 + fuel))%py w =
      Done (or_empty (text p)) w').
Proof.
  intros Hg Hr Hrp Hp Hpc Hsrc Hid Htail. split.
  - erewrite bind_Done by apply load_grammar_eq.
    erewrite (@single_rule_default R randbelow g r p Hg Hr Hrp Hp Hpc)
      by reflexivity.
    eexists. reflexivity.
  - erewrite bind_Done by apply load_grammar_eq.
    erewrite bind_Done by reflexivity.
    cbn [self rand].
    erewrite (@single_rule_refresh R randbelow g r p Hg Hr Hrp Hp Hpc src)
      by (assumption || reflexivity).
    eexists. reflexivity.
Qed.

Lemma C1_single_literal_rule_witness :
  (exists w',
      (load_grammar grammar_hello ;; get_default_source (always 0))%py
        (mkWorld (generator_of grammar_hi (xref_to "x")) tt) =
      Done (xref_source (Some "greeting")) w') /\
  (exists w',
      (load_grammar grammar_hello ;; load_source (xref_to "greeting") ;;
       refresh (always 0) 2)%py
        (mkWorld (generator_of grammar_hi (xref_to "x")) tt) =
      Done "hello" w').
Proof.
  apply (@C1_single_literal_rule unit (always 0)
           (mkWorld (generator_of grammar_hi (xref_to "x")) tt)
           grammar_hello ref_greeting p_hello (xref_to "greeting") 0);
    reflexivity.
Defined.

(** What [_load] does with the stream that [open_anything] resolved, and
    with a string that [open] refuses. *)
Section LoadFacts.

Variable R : Type.
Variable S : Type.
Variable fs_open : string -> open_result S.
Variable stdin : S.
Variable StringIO : string -> S.
Variable etree_parse : S -> element + exn.

Lemma _load_resolved (stuff : source_arg S) (sock : S) (w : world R) :
  open_anything fs_open stdin StringIO stuff = inl sock ->
  _load fs_open stdin StringIO etree_parse stuff w =
  match etree_parse sock with
  | inl root => Done root w
  | inr e => Raise e w
  end.
Proof.
  intros H. unfold _load. rewrite H. destruct (etree_parse sock); reflexivity.
Qed.

Lemma open_refused_name (s : string) :
  fs_open s = OpenOSError -> String.eqb s "-" = false ->
  open_anything fs_open stdin StringIO (Name s) = inl (StringIO s).
Proof.
  intros Hopen Hdash. unfold open_anything, open_or_text.
  now rewrite Hdash, Hopen.
Qed.


Lemma xref_source_is_not_dash (k : pystr) :
  String.eqb (xref_source k) "-" = false.
Proof. reflexivity. Qed.

End LoadFacts.

(** The same grammar through [__init__] without a source: the default
    source is written out as [<xref id="..."/>] and handed to the parser, so
    the result rests on what the parser reads from that text.  When it reads
    the reference back, the output is the text of the paragraph; when it
    raises on the text, [__init__] raises the same. *)
Section InitSingleRule.

Variable R : Type.
Variable randbelow : R -> nat -> nat * R.
Variable S : Type.
Variable fs_open : string -> open_result S.
Variable stdin : S.
Variable StringIO : string -> S.
Variable etree_parse : S -> element + exn.
Variables g r p : element.
Variable grammar_arg : source_arg S.
Variable sock : S.
Hypothesis Hopen : open_anything fs_open stdin StringIO grammar_arg = inl sock.
Hypothesis Hdoc : etree_parse sock = inl g.
Hypothesis Hg : children g = [r].
Hypothesis Hr : tag r = "ref".
Hypothesis Hrp : children r = [p].
Hypothesis Hp : tag p = "p".
Hypothesis Hpc : children p = [].
Hypothesis Hnofile : fs_open (xref_source (get r "id")) = OpenOSError.

Lemma open_default_source :
  open_anything fs_open stdin StringIO (Name (xref_source (get r "id"))) =
  inl (StringIO (xref_source (get r "id"))).
Proof.
  apply open_refused_name; [exact Hnofile | apply xref_source_is_not_dash].
Qed.

Lemma init_until_default_source (fuel : nat) (w : world R) :
  init randbelow fs_open stdin StringIO etree_parse fuel grammar_arg None w =
  (sroot <- _load fs_open stdin StringIO etree_parse
                  (Name (xref_source (get r "id"))) ;;
   load_source sroot ;;
   refresh randbelow fuel)%py
    (mkWorld (set_refs (load_refs g) (set_grammar g (self w)))
             (snd (randbelow (rand w) 1))).
Proof.
  unfold init.
  erewrite bind_Done
    by (rewrite (@_load_resolved R S fs_open stdin StringIO etree_parse
                   grammar_arg sock w Hopen), Hdoc;
        reflexivity).
  erewrite bind_Done by apply load_grammar_eq.
  erewrite bind_Done;
    [|erewrite bind_Done;
      [reflexivity
      |apply (@single_rule_default R randbelow g r p Hg Hr Hrp Hp Hpc);
       reflexivity]].
  reflexivity.
Qed.

Lemma init_single_literal_rule (src : element) (fuel : nat) (w : world R) :
  etree_parse (StringIO (xref_source (get r "id"))) = inl src ->
  tag src = "xref" -> get src "id" = get r "id" -> tail src = None ->
  exists w',
    init randbelow fs_open stdin StringIO etree_parse (2 + fuel)
         grammar_arg None w =
    Done (or_empty (text p)) w'.
Proof.
  intros Hparse Hsrc Hid Htail. rewrite init_until_default_source.
  erewrite bind_Done
    by (rewrite (@_load_resolved R S fs_open stdin StringIO etree_parse
                   _ _ _ open_default_source), Hparse;
        reflexivity).
  erewrite bind_Done by reflexivity.
  cbn [self rand].
  erewrite (@single_rule_refresh R randbelow g r p Hg Hr Hrp Hp Hpc src)
    by (assumption || reflexivity).
  eexists. reflexivity.
Qed.

Lemma init_default_source_rejected (e : exn) (fuel : nat) (w : world R) :
  etree_parse (StringIO (xref_source (get r "id"))) = inr e ->
  exists w',
    init randbelow fs_open stdin StringIO etree_parse fuel grammar_arg None w
    = Raise e w'.
Proof.
  intros Hparse. rewrite init_until_default_source. unfold bind.
  rewrite (@_load_resolved R S fs_open stdin StringIO etree_parse
             _ _ _ open_default_source), Hparse.
  eexists. reflexivity.
Qed.

End InitSingleRule.


(** A paragraph of literal text appends its text. *)
Lemma parse_literal_p {R} (randbelow : R -> nat -> nat * R) (fuel : nat)
      (a : list (string * string)) (tx tl : pystr) (s : Generator) (r : R) :
  parse randbelow (S fuel) (leaf "p" a tx tl) (mkWorld s r) =
  Done tt (mkWorld (set_pieces (pieces s ++ [or_empty tx]) s) r).
Proof. rewrite parse_S_p by reflexivity. reflexivity. Qed.

(** Two states that differ in how the accumulated pieces are bracketed. *)
Ltac same_pieces :=
  unfold pieces_append, modify, ret, set_pieces;
  cbn [self rand pieces grammar refs source capitalize_next_word or_empty
       tail text leaf xref_to];
  rewrite <- ?app_assoc; cbn [app]; try reflexivity.

(** The run of [grammar_hi] from the reference to [x], from the paragraph
    of [root], and from the reference to [root]. *)
Lemma parse_hi_x {R} (randbelow : R -> nat -> nat * R) (fuel : nat)
      (s : Generator) (r : R) :
  refs s = load_refs grammar_hi ->
  parse randbelow (2 + fuel) xref_x_bang (mkWorld s r) =
  Done tt (mkWorld (set_pieces (pieces s ++ ["hi"; "!"]) s)
                   (snd (randbelow r 1))).
Proof.
  intros Hrefs. change (2 + fuel) with (S (S fuel)).
  rewrite parse_S_xref by reflexivity.
  rewrite (parse_xref_singleton randbelow _ _ (rule := ref_x)
             (p := leaf "p" [] (Some "hi") None));
    [|simpl; rewrite Hrefs; reflexivity|reflexivity].
  cbn [self rand].
  erewrite bind_Done by apply parse_literal_p.
  same_pieces.
Qed.

Lemma parse_hi_p {R} (randbelow : R -> nat -> nat * R) (fuel : nat)
      (s : Generator) (r : R) :
  refs s = load_refs grammar_hi ->
  parse randbelow (3 + fuel) (Element "p" [] None None [xref_x_bang])
        (mkWorld s r) =
  Done tt (mkWorld (set_pieces (pieces s ++ [EmptyString; "hi"; "!"]) s)
                   (snd (randbelow r 1))).
Proof.
  intros Hrefs. change (3 + fuel) with (S (2 + fuel)).
  rewrite parse_S_p by reflexivity.
  unfold parse_p. erewrite bind_Done by reflexivity.
  cbn [children for_each text or_empty self rand].
  erewrite bind_Done by (apply parse_hi_x; exact Hrefs).
  same_pieces.
Qed.

Lemma parse_hi {R} (randbelow : R -> nat -> nat * R) (fuel : nat)
      (s : Generator) (r : R) :
  refs s = load_refs grammar_hi ->
  exists r',
    parse randbelow (4 + fuel) (xref_to "root") (mkWorld s r) =
    Done tt (mkWorld (set_pieces (pieces s ++ [EmptyString; "hi"; "!";
                                               EmptyString]) s) r').
Proof.
  intros Hrefs. change (4 + fuel) with (S (3 + fuel)).
  rewrite parse_S_xref by reflexivity.
  rewrite (parse_xref_singleton randbelow _ _ (rule := ref_root)
             (p := Element "p" [] None None [xref_x_bang]));
    [|simpl; rewrite Hrefs; reflexivity|reflexivity].
  cbn [self rand].
  erewrite bind_Done by (apply parse_hi_p; exact Hrefs).
  eexists. same_pieces.
Qed.

Lemma generate_hi {R} (randbelow : R -> nat -> nat * R) (w : world R)
      (fuel : nat) :
  exists w',
    (load_grammar grammar_hi ;; load_source (xref_to "root") ;;
     refresh randbelow (4 + fuel))%py w = Done "hi!" w'.
Proof.
  erewrite bind_Done by apply load_grammar_eq.
  erewrite bind_Done by reflexivity.
  unfold refresh.
  erewrite bind_Done by reflexivity.
  erewrite bind_Done by reflexivity.
  cbn [self rand source set_source set_pieces set_capitalize_next_word
       set_refs set_grammar grammar refs pieces capitalize_next_word].
  edestruct (@parse_hi R randbelow fuel) as [r' Hrun];
    [|erewrite bind_Done by apply Hrun]; [reflexivity|].
  eexists. reflexivity.
Qed.

(** C3.  A reference that expands without an exception leaves in the
    accumulator what was there, then the pieces of the alternative chosen
    from its rule, then its own tail: the tail comes after the expansion.
    And the grammar in which rule [x] is the paragraph [hi] and rule [root]
    is a paragraph holding a reference to [x] with tail [!] generates [hi!],
    whatever the random source answers. *)
Theorem C3_tail_after_expansion :
  (forall (R : Type) (randbelow : R -> nat -> nat * R) (fuel : nat)
          (node : element) (w w' : world R),
      tag node = "xref" ->
      parse randbelow (S fuel) node w = Done tt w' ->
      exists rule child r expansion,
        Dict.get (get node "id") (refs (self w)) = Some rule /\
        In child (children rule) /\
        (exists w2,
            parse randbelow fuel child (mkWorld (self w) r) = Done tt w2 /\
            pieces (self w2) = pieces (self w) ++ expansion) /\
        pieces (self w') =
        pieces (self w) ++ expansion ++ [or_empty (tail node)]) /\
  (forall (R : Type) (randbelow : R -> nat -> nat * R) (w : world R)
          (fuel : nat),
      exists w',
        (load_grammar grammar_hi ;; load_source (xref_to "root") ;;
         refresh randbelow (4 + fuel))%py w = Done "hi!" w').
Proof.
  split.
  - intros R randbelow fuel node w w' Htag Hrun.
    cbn [parse] in Hrun. rewrite Htag in Hrun.
    cbn [String.eqb Ascii.eqb Bool.eqb] in Hrun.
    unfold parse_xref, bind, read, random_child_element in Hrun.
    destruct (Dict.get (get node "id") (refs (self w))) as [rule|];
      [|discriminate].
    destruct (children rule) as [|c cs] eqn:Hcs; [discriminate|].
    destruct (choice_nonempty randbelow c cs w) as (y & r & Hy & Hc).
    rewrite Hc in Hrun.
    assert (Happ : post (parse randbelow fuel y (mkWorld (self w) r))
                        (extends w)).
    { apply appends_parse. apply extends_rand. apply extends_refl. }
    destruct (parse randbelow fuel y (mkWorld (self w) r))
      as [[] w2|e w2|] eqn:Hy2; try discriminate.
    destruct Happ as [expansion Hexp]. simpl in Hexp.
    exists rule, y, r, expansion. rewrite Hcs.
    split; [reflexivity|]. split; [exact Hy|]. split.
    + exists w2. split; [exact Hy2 | exact Hexp].
    + unfold pieces_append, modify in Hrun. inversion Hrun. simpl.
      rewrite Hexp. now rewrite app_assoc.
  - intros R randbelow w fuel. apply generate_hi.
Qed.

Lemma C3_tail_after_expansion_witness :
  exists rule child r expansion,
    Dict.get (get xref_x_bang "id")
             (refs (generator_of grammar_hi (xref_to "root"))) = Some rule /\
    In child (children rule) /\
    (exists w2,
        parse (always 0) 1 child
              (mkWorld (generator_of grammar_hi (xref_to "root")) r)
        = Done tt w2 /\
        pieces (self w2) =
        pieces (generator_of grammar_hi (xref_to "root")) ++ expansion) /\
    ["hi"; "!"] =
    pieces (generator_of grammar_hi (xref_to "root")) ++
    expansion ++ [or_empty (tail xref_x_bang)].
Proof.
  apply (proj1 C3_tail_after_expansion unit (always 0) 1 xref_x_bang
               (mkWorld (generator_of grammar_hi (xref_to "root")) tt)
               (mkWorld (set_pieces ["hi"; "!"]
                           (generator_of grammar_hi (xref_to "root"))) tt)).
  - reflexivity.
  - reflexivity.
Defined.

(** C8.  A call of [refresh], and of [parse] on any node, leaves the
    grammar, the rule dictionary and the source of the object as they were,
    whether the call returns or raises. *)
Theorem C8_expansion_only_reads_the_grammar
        (R : Type) (randbelow : R -> nat -> nat * R) (fuel : nat)
        (w : world R) :
  post (refresh randbelow fuel w) (frame w) /\
  (forall node, post (parse randbelow fuel node w) (frame w)).
Proof.
  split.
  - apply preserves_refresh. apply frame_refl.
  - intros node. apply preserves_parse. apply frame_refl.
Qed.

(** C9.  Two runs of [refresh] from states that differ in the flag
    [capitalize_next_word] only have the same outcome, output included;
    [parse] from such states does the same and leaves each flag as it was;
    and [reset] sets the flag to [False]. *)
Theorem C9_capitalize_flag_has_no_effect
        (R : Type) (randbelow : R -> nat -> nat * R) (fuel : nat)
        (b : bool) (w : world R) :
  refresh randbelow fuel (with_flag b w) = refresh randbelow fuel w /\
  (forall node,
      parse randbelow fuel node (with_flag b w) =
      map_world (with_flag b) (parse randbelow fuel node w)) /\
  post (@reset R w) (fun w' => capitalize_next_word (self w') = false).
Proof.
  split; [apply refresh_with_flag|]. split.
  - intros node. apply flag_blind_parse.
  - reflexivity.
Qed.

(** ** The claim about loading from a source *)



(** ** Termination on grammars without reference cycles *)

Lemma returnsb_returns {R A} (o : outcome R A) :
  returnsb o = true <-> returns o.
Proof. destruct o; simpl; intuition discriminate. Qed.

Lemma list_max_map_le {A} (f : A -> nat) (xs : list A) (m : nat) :
  (forall x, In x xs -> f x <= m) -> list_max (map f xs) <= m.
Proof.
  intros H. apply list_max_le. apply Forall_forall.
  intros n Hn. apply in_map_iff in Hn. destruct Hn as (x & <- & Hx). auto.
Qed.

Lemma le_list_max_map {A} (f : A -> nat) (xs : list A) (x : A) :
  In x xs -> f x <= list_max (map f xs).
Proof.
  intros Hx.
  assert (H : Forall (fun k => k <= list_max (map f xs)) (map f xs))
    by (apply list_max_le; lia).
  rewrite Forall_forall in H. apply H. now apply in_map.
Qed.

Lemma height_child (node c : element) :
  In c (children node) -> height c < height node.
Proof.
  intros Hc. destruct node as [t a tx tl cs]. simpl in *.
  pose proof (le_list_max_map height cs c Hc). lia.
Qed.

Lemma height_pos (node : element) : 1 <= height node.
Proof. destruct node. simpl. lia. Qed.

Lemma get_In {V} (k : pystr) (v : V) (d : Dict.t V) :
  Dict.get k d = Some v -> In (k, v) d.
Proof.
  induction d as [|[k' v'] d IH]; simpl; [discriminate|].
  destruct (pystr_eqb_spec k k') as [->|Hne].
  - intros H. inversion H. now left.
  - intros H. right. auto.
Qed.

Lemma rule_height (rs : Dict.t element) (k : pystr) (rule : element) :
  Dict.get k rs = Some rule -> height rule <= max_rule_height rs.
Proof.
  intros H. apply get_In in H. unfold max_rule_height.
  apply (le_list_max_map (fun kv => height (snd kv)) rs (k, rule) H).
Qed.

Lemma targets_xref (node : element) :
  tag node = "xref" -> targets node = [get node "id"].
Proof. intros H. destruct node. simpl in *. now rewrite H. Qed.

Lemma targets_p (node c : element) (b : pystr) :
  tag node = "p" -> In c (children node) -> In b (targets c) ->
  In b (targets node).
Proof.
  intros H Hc Hb. destruct node as [t a tx tl cs]. simpl in *. subst t.
  simpl. apply in_flat_map. exists c. auto.
Qed.

Lemma path_snoc (rs : Dict.t element) (a b c : pystr) :
  path rs a b -> edge rs b c -> path rs a c.
Proof.
  intros Hab Hbc. induction Hab as [a b Hab|a b b' Hab Hbb' IH].
  - eapply path_step; [exact Hab|]. now apply path_edge.
  - eapply path_step; [exact Hab|]. now apply IH.
Qed.

(** In a grammar without cycles the exploration of [nesting] stays within
    [nesting_bound]: the rules on the way down are pairwise distinct. *)
Lemma nesting_within (rs : Dict.t element) :
  acyclic rs ->
  forall fuel n visited node,
    NoDup visited ->
    incl visited (Dict.keys rs) ->
    length (Dict.keys rs) - length visited <= n ->
    (forall b, In b (targets node) ->
               forall a, In a visited -> path rs a b) ->
    nesting rs fuel node <= n * max_rule_height rs + height node.
Proof.
  intros Hacyc fuel.
  induction fuel as [|fuel IH]; intros n visited node Hnd Hincl Hn Hinv;
    [simpl; lia|].
  pose proof (height_pos node) as Hpos.
  simpl. destruct (String.eqb_spec (tag node) "xref") as [Hx|Hx].
  - destruct (Dict.get (get node "id") rs) as [rule|] eqn:Hget; [|lia].
    set (b := get node "id") in *.
    assert (Hb : In b (targets node))
      by (rewrite (targets_xref node Hx); now left).
    assert (Hfresh : ~ In b visited).
    { intros Hin. apply (Hacyc b). now apply Hinv. }
    assert (Hkey : In b (Dict.keys rs))
      by (eapply DictFacts.get_Some_In; exact Hget).
    assert (Hnd' : NoDup (b :: visited)) by now constructor.
    assert (Hincl' : incl (b :: visited) (Dict.keys rs)).
    { intros a [<-|Ha]; auto. }
    pose proof (NoDup_incl_length Hnd' Hincl') as Hlen. simpl in Hlen.
    destruct n as [|n]; [lia|].
    pose proof (rule_height rs b Hget) as Hrule.
    assert (Hmax : list_max (map (nesting rs fuel) (children rule)) <=
                   n * max_rule_height rs + (max_rule_height rs - 1)).
    { apply list_max_map_le. intros c Hc.
      pose proof (height_child rule c Hc) as Hch.
      assert (Hc' : nesting rs fuel c <=
                    n * max_rule_height rs + height c).
      { apply (IH n (b :: visited) c Hnd' Hincl'); [simpl; lia|].
        intros b' Hb' a [<-|Ha].
        - apply path_edge. exists rule, c. auto.
        - eapply path_snoc; [apply (Hinv b Hb a Ha)|].
          exists rule, c. auto. }
      lia. }
    simpl. lia.
  - destruct (String.eqb_spec (tag node) "p") as [Hp|Hp]; [|lia].
    assert (Hmax : list_max (map (nesting rs fuel) (children node)) <=
                   n * max_rule_height rs + (height node - 1)).
    { apply list_max_map_le. intros c Hc.
      pose proof (height_child node c Hc) as Hch.
      assert (Hc' : nesting rs fuel c <=
                    n * max_rule_height rs + height c).
      { apply (IH n visited c Hnd Hincl Hn).
        intros b' Hb'. apply Hinv. eapply targets_p; eauto. }
      lia. }
    lia.
Qed.

Lemma nesting_depth_within (rs : Dict.t element) (node : element) :
  acyclic rs -> nesting_depth rs node <= nesting_bound rs node.
Proof.
  intros Hacyc. unfold nesting_depth, nesting_bound.
  apply nesting_within with (visited := []).
  - exact Hacyc.
  - constructor.
  - intros a [].
  - simpl. lia.
  - intros b _ a [].
Qed.

(** Once the exploration ends above the bottom of its fuel, more fuel finds
    the same depth: [nesting_depth] does not depend on the bound chosen. *)
Lemma nesting_stable (rs : Dict.t element) (fuel : nat) :
  forall fuel' node,
    nesting rs fuel node < fuel -> fuel <= fuel' ->
    nesting rs fuel' node = nesting rs fuel node.
Proof.
  induction fuel as [|fuel IH]; intros fuel' node Hlt Hle; [lia|].
  destruct fuel' as [|fuel']; [lia|].
  assert (Hmap : forall cs,
             S (list_max (map (nesting rs fuel) cs)) < S fuel ->
             map (nesting rs fuel') cs = map (nesting rs fuel) cs).
  { intros cs Hcs. apply map_ext_in. intros c Hc.
    pose proof (le_list_max_map (nesting rs fuel) cs c Hc).
    apply IH; lia. }
  simpl in *. destruct (String.eqb (tag node) "xref").
  - destruct (Dict.get (get node "id") rs) as [rule|]; auto.
    now rewrite Hmap.
  - destruct (String.eqb (tag node) "p"); auto. now rewrite Hmap.
Qed.

Lemma nesting_depth_stable (rs : Dict.t element) (node : element)
      (fuel : nat) :
  acyclic rs -> nesting_bound rs node < fuel ->
  nesting rs fuel node = nesting_depth rs node.
Proof.
  intros Hacyc Hfuel. unfold nesting_depth.
  apply nesting_stable; [|lia].
  pose proof (nesting_depth_within node Hacyc) as H.
  unfold nesting_depth in H. lia.
Qed.

Lemma returns_bind_inv {R A B} (m : M R A) (k : A -> M R B) (w : world R) :
  returns (bind m k w) ->
  returns (m w) /\ (forall a w', m w = Done a w' -> returns (k a w')).
Proof.
  unfold bind. destruct (m w) as [a w'|e w'|]; simpl; intros H.
  - split; [exact I|]. intros a0 w0 E. inversion E. subst. exact H.
  - split; [exact I|]. intros a0 w0 E. discriminate.
  - contradiction.
Qed.

Lemma returns_bind {R A B} (m : M R A) (k : A -> M R B) (w : world R) :
  returns (m w) ->
  (forall a w', m w = Done a w' -> returns (k a w')) ->
  returns (bind m k w).
Proof.
  unfold bind. destruct (m w) as [a w'|e w'|]; simpl; auto.
Qed.

Lemma returns_for_each {R A} (body : A -> M R unit) (xs : list A)
      (inv : world R -> Prop) :
  (forall x w, In x xs -> inv w ->
               returns (body x w) /\ post (body x w) inv) ->
  forall w, inv w -> returns (for_each xs body w).
Proof.
  induction xs as [|x xs IH]; intros Hbody w Hw; simpl; [exact I|].
  destruct (Hbody x w (or_introl eq_refl) Hw) as [Hret Hpost].
  apply returns_bind; [exact Hret|].
  intros [] w' E. rewrite E in Hpost. simpl in Hpost.
  apply IH; [|exact Hpost].
  intros y w0 Hy. apply Hbody. now right.
Qed.

Section Termination.

Variable R : Type.
Variable randbelow : R -> nat -> nat * R.

Lemma parse_keeps_refs (fuel : nat) (node : element) (w : world R) :
  post (parse randbelow fuel node w)
       (fun w' => refs (self w') = refs (self w)).
Proof.
  pose proof (preserves_parse randbelow fuel node (frame_refl w)) as H.
  destruct (parse randbelow fuel node w); simpl in *; auto;
    now destruct H as (_ & H & _).
Qed.

(** Where the exploration of [nesting] ended above the bottom of its fuel,
    the depth it found is fuel enough for every run. *)
Lemma parse_returns (rs : Dict.t element) (fuel : nat) :
  forall node k (w : world R),
    nesting rs fuel node < fuel ->
    nesting rs fuel node <= k ->
    refs (self w) = rs ->
    returns (parse randbelow k node w).
Proof.
  induction fuel as [|fuel IH]; intros node k w Hlt Hk Hrs; [lia|].
  simpl in Hlt, Hk.
  destruct (String.eqb (tag node) "xref") eqn:Hx.
  - apply String.eqb_eq in Hx.
    destruct k as [|k]; [destruct (Dict.get _ rs); lia|].
    rewrite (parse_S_xref randbelow k node Hx).
    unfold parse_xref, bind at 1, read. rewrite Hrs.
    destruct (Dict.get (get node "id") rs) as [rule|]; [|exact I].
    unfold random_child_element.
    destruct (children rule) as [|c cs] eqn:Hcs; [exact I|].
    destruct (choice_nonempty randbelow c cs w) as (y & r & Hy & Hc).
    apply returns_bind; [now rewrite Hc|].
    intros y' w1 E. rewrite Hc in E. inversion E. subst y' w1.
    pose proof (le_list_max_map (nesting rs fuel) (c :: cs) y Hy).
    apply returns_bind; [apply IH; simpl; auto; lia|].
    intros [] w2 _. exact I.
  - destruct (String.eqb (tag node) "p") eqn:Hp.
    + apply String.eqb_eq in Hp.
      destruct k as [|k]; [lia|].
      rewrite (parse_S_p randbelow k node Hp).
      unfold parse_p. apply returns_bind; [exact I|].
      intros [] w1 E. unfold pieces_append, modify in E. inversion E.
      apply (returns_for_each _ _ (fun w' => refs (self w') = rs)); [|now subst].
      intros c w0 Hc Hw0.
      pose proof (le_list_max_map (nesting rs fuel) (children node) c Hc).
      split; [apply IH; auto; lia|].
      rewrite <- Hw0. apply parse_keeps_refs.
    + destruct k as [|k]; [lia|]. simpl. rewrite Hx, Hp. exact I.
Qed.

Lemma for_each_more_fuel {A} (f g : A -> M R unit) (xs : list A) :
  (forall x w, returns (f x w) -> g x w = f x w) ->
  forall w, returns (for_each xs f w) -> for_each xs g w = for_each xs f w.
Proof.
  intros Hfg. induction xs as [|x xs IH]; intros w Hret; simpl; auto.
  simpl in Hret. apply returns_bind_inv in Hret. destruct Hret as [Hx Hrest].
  unfold bind. rewrite (Hfg x w Hx).
  destruct (f x w) as [[] w'|e w'|]; auto.
  apply IH. apply (Hrest tt w'). reflexivity.
Qed.

Lemma parse_xref_more_fuel (f g : element -> M R unit) (node : element)
      (w : world R) :
  (forall x w, returns (f x w) -> g x w = f x w) ->
  returns (parse_xref randbelow f node w) ->
  parse_xref randbelow g node w = parse_xref randbelow f node w.
Proof.
  intros Hfg. unfold parse_xref, bind, read.
  destruct (random_child_element randbelow
              (Dict.get (get node "id") (refs (self w))))
    as [child w1|e w1|]; auto.
  intros Hret.
  assert (Hchild : returns (f child w1))
    by (destruct (f child w1); simpl in *; auto).
  now rewrite (Hfg child w1 Hchild).
Qed.

Lemma parse_p_more_fuel (f g : element -> M R unit) (node : element)
      (w : world R) :
  (forall x w, returns (f x w) -> g x w = f x w) ->
  returns (parse_p f node w) ->
  parse_p g node w = parse_p f node w.
Proof.
  intros Hfg. unfold parse_p, bind, pieces_append, modify.
  apply for_each_more_fuel. exact Hfg.
Qed.

(** A run that comes back does the same with any larger fuel. *)
Lemma parse_more_fuel (k : nat) :
  forall k' node (w : world R),
    k <= k' ->
    returns (parse randbelow k node w) ->
    parse randbelow k' node w = parse randbelow k node w.
Proof.
  induction k as [|k IH]; intros k' node w Hk Hret; [contradiction|].
  destruct k' as [|k']; [lia|].
  simpl in *.
  destruct (String.eqb (tag node) "xref").
  - apply parse_xref_more_fuel; auto.
    intros x w0 Hx. apply IH; auto. lia.
  - destruct (String.eqb (tag node) "p"); auto.
    apply parse_p_more_fuel; auto.
    intros x w0 Hx. apply IH; auto. lia.
Qed.

End Termination.

(** A ranking that goes down along every edge excludes cycles. *)
Lemma edge_In_edges (rs : Dict.t element) (a b : pystr) :
  edge rs a b -> In (a, b) (edges rs).
Proof.
  intros (rule & c & Hget & Hc & Hb). unfold edges.
  apply in_flat_map. exists (a, rule). split; [now apply get_In|].
  simpl. apply in_map. apply in_flat_map. exists c. auto.
Qed.

Lemma ranked_path (rank : pystr -> nat) (rs : Dict.t element) (a b : pystr) :
  ranked rank rs = true -> path rs a b -> rank b < rank a.
Proof.
  intros Hrk Hp. unfold ranked in Hrk. rewrite forallb_forall in Hrk.
  induction Hp as [a b Hab|a b c Hab Hbc IH].
  - apply edge_In_edges, Hrk in Hab. now apply Nat.ltb_lt in Hab.
  - apply edge_In_edges, Hrk in Hab. apply Nat.ltb_lt in Hab.
    simpl in Hab. lia.
Qed.

Lemma ranked_acyclic (rank : pystr -> nat) (rs : Dict.t element) :
  ranked rank rs = true -> acyclic rs.
Proof.
  intros Hrk a Hp. pose proof (ranked_path rank Hrk Hp). lia.
Qed.

Lemma recursion_depth_found {R} (randbelow : R -> nat -> nat * R)
      (bound : nat) (node : element) (w : world R) :
  returns (parse randbelow bound node w) ->
  exists d, recursion_depth randbelow bound node w = Some d /\ d <= bound /\
            returns (parse randbelow d node w).
Proof.
  intros Hret. unfold recursion_depth.
  destruct (find _ (seq 0 (S bound))) as [d|] eqn:E.
  - apply find_some in E. destruct E as [Hin Hd].
    apply in_seq in Hin. apply returnsb_returns in Hd.
    exists d. repeat split; auto. lia.
  - exfalso.
    assert (Hin : In bound (seq 0 (S bound))) by (apply in_seq; lia).
    pose proof (find_none _ _ E bound Hin) as Hn. simpl in Hn.
    apply returnsb_returns in Hret. congruence.
Qed.

(** Without the hypothesis the recursion need not end: in
    [grammar_mutual] no amount of fuel lets a run come back. *)
Lemma mutual_reference_never_returns {R} (randbelow : R -> nat -> nat * R)
      (fuel : nat) :
  forall w : world R,
    refs (self w) = load_refs grammar_mutual ->
    parse randbelow fuel (xref_to "a") w = OutOfFuel /\
    parse randbelow fuel (xref_to "b") w = OutOfFuel /\
    parse randbelow fuel (p_to "a") w = OutOfFuel /\
    parse randbelow fuel (p_to "b") w = OutOfFuel.
Proof.
  induction fuel as [|fuel IH]; intros w Hrefs; [repeat split|].
  assert (Hx : forall k rule other,
             Dict.get (Some k) (load_refs grammar_mutual) = Some rule ->
             children rule = [p_to other] ->
             parse randbelow fuel (p_to other)
                   (mkWorld (self w) (snd (randbelow (rand w) 1)))
             = OutOfFuel ->
             parse randbelow (S fuel) (xref_to k) w = OutOfFuel).
  { intros k rule other Hget Hc Hp.
    rewrite parse_S_xref by reflexivity.
    rewrite (parse_xref_singleton randbelow _ _ (rule := rule)
               (p := p_to other));
      [|simpl; rewrite Hrefs; exact Hget|exact Hc].
    unfold bind. now rewrite Hp. }
  assert (Hp : forall k,
             (forall w0 : world R,
                 refs (self w0) = load_refs grammar_mutual ->
                 parse randbelow fuel (xref_to k) w0 = OutOfFuel) ->
             parse randbelow (S fuel) (p_to k) w = OutOfFuel).
  { intros k Hk. rewrite parse_S_p by reflexivity.
    unfold parse_p. erewrite bind_Done by reflexivity.
    cbn [p_to children for_each]. unfold bind.
    rewrite Hk by exact Hrefs. reflexivity. }
  repeat split.
  - apply (Hx "a" ref_a "b"); try reflexivity. now apply IH.
  - apply (Hx "b" ref_b "a"); try reflexivity. now apply IH.
  - apply Hp. intros w0 Hw0. now apply IH.
  - apply Hp. intros w0 Hw0. now apply IH.
Qed.

(** C6, as amended.  When no rule refers to itself through any chain of
    references, [parse] comes back from every node, and so does [refresh]:
    the nesting depth of the grammar below the node is fuel enough, whatever
    the random source answers, more fuel changes nothing, and the recursion
    of the run is at most that deep. *)
Theorem C6_acyclic_grammar_terminates
        (R : Type) (randbelow : R -> nat -> nat * R)
        (node : element) (w : world R) :
  acyclic (refs (self w)) ->
  let depth := nesting_depth (refs (self w)) node in
  let depth_src := nesting_depth (refs (self w)) (source (self w)) in
  returns (parse randbelow depth node w) /\
  (forall fuel, depth <= fuel ->
                parse randbelow fuel node w = parse randbelow depth node w) /\
  (exists d, recursion_depth randbelow depth node w = Some d /\ d <= depth) /\
  returns (refresh randbelow depth_src w) /\
  (forall fuel, depth_src <= fuel ->
                refresh randbelow fuel w = refresh randbelow depth_src w).
Proof.
  intros Hacyc depth depth_src.
  assert (Hall : forall n (w0 : world R),
             refs (self w0) = refs (self w) ->
             returns (parse randbelow
                            (nesting_depth (refs (self w)) n) n w0)).
  { intros n w0 Hw0.
    apply parse_returns
      with (rs := refs (self w)) (fuel := S (nesting_bound (refs (self w)) n));
      auto.
    pose proof (nesting_depth_within n Hacyc). unfold nesting_depth in *.
    lia. }
  assert (Hret : returns (parse randbelow depth node w)) by now apply Hall.
  split; [exact Hret|]. split.
  { intros fuel Hfuel. now apply parse_more_fuel. }
  split.
  { destruct (recursion_depth_found randbelow depth node w Hret)
      as (d & Hd & Hle & _).
    exists d. auto. }
  assert (Hsrc : returns
                   (parse randbelow depth_src (source (self w))
                          (mkWorld (set_capitalize_next_word false
                                      (set_pieces [] (self w))) (rand w))))
    by now apply Hall.
  split.
  - unfold refresh, bind, reset, modify, read. simpl.
    destruct (parse randbelow depth_src (source (self w)) _);
      simpl in *; auto.
  - intros fuel Hfuel. unfold refresh, bind, reset, modify, read. simpl.
    now rewrite (parse_more_fuel randbelow _ _ Hfuel Hsrc).
Qed.

Lemma C6_acyclic_grammar_terminates_witness :
  let w := mkWorld (generator_of grammar_two_depths (xref_to "r")) tt in
  let node := xref_to "r" in
  let depth := nesting_depth (refs (self w)) node in
  let depth_src := nesting_depth (refs (self w)) (source (self w)) in
  returns (parse (always 1) depth node w) /\
  (forall fuel, depth <= fuel ->
                parse (always 1) fuel node w = parse (always 1) depth node w) /\
  (exists d, recursion_depth (always 1) depth node w = Some d /\ d <= depth) /\
  returns (refresh (always 1) depth_src w) /\
  (forall fuel, depth_src <= fuel ->
                refresh (always 1) fuel w = refresh (always 1) depth_src w).
Proof.
  apply (@C6_acyclic_grammar_terminates unit (always 1) (xref_to "r")
           (mkWorld (generator_of grammar_two_depths (xref_to "r")) tt)).
  apply (ranked_acyclic rank_r_s). reflexivity.
Defined.

(** C6, the claim as stated fails: in [grammar_two_depths], which has no
    cycle, the nesting depth below the reference to [r] is 4 calls of
    [parse], and the run that draws the first alternative of [r] comes back
    from a recursion 2 calls deep. *)
Lemma C6_shallow_run_in_deep_grammar :
  let w := mkWorld (generator_of grammar_two_depths (xref_to "r")) tt in
  acyclic (refs (self w)) /\
  nesting_depth (refs (self w)) (xref_to "r") = 4 /\
  recursion_depth (always 0) 4 (xref_to "r") w = Some 2 /\
  refresh (always 0) 2 w = Done "a" (mkWorld (set_pieces ["a"; EmptyString]
                                                (self w)) tt) /\
  recursion_depth (always 1) 4 (xref_to "r") w = Some 4.
Proof.
  split; [apply (ranked_acyclic rank_r_s); reflexivity|].
  repeat split.
Qed.

(** * Further properties of the generator *)

(** ** The accumulator *)

(** [parse] never removes or rewrites a piece that is in the accumulator:
    whether it returns or raises, the pieces it found are still there, in
    front of the pieces it added. *)
Theorem parse_only_appends
        (R : Type) (randbelow : R -> nat -> nat * R) (fuel : nat)
        (node : element) (w : world R) :
  post (parse randbelow fuel node w)
       (fun w' => exists added,
                    pieces (self w') = pieces (self w) ++ added).
Proof.
  apply (appends_parse randbelow fuel node (w0 := w)). apply extends_refl.
Qed.

(** ** Every generated text is a text of the grammar *)

Section Sound.

Variable R : Type.
Variable randbelow : R -> nat -> nat * R.

Lemma for_each_sound (rs : Dict.t element) (body : element -> M R unit)
      (cs : list element) :
  (forall c (w w' : world R),
      In c cs -> refs (self w) = rs -> body c w = Done tt w' ->
      refs (self w') = rs /\
      exists ps, expands rs c ps /\
                 pieces (self w') = pieces (self w) ++ ps) ->
  forall w w' : world R,
    refs (self w) = rs ->
    for_each cs body w = Done tt w' ->
    exists qs, expands_all rs cs qs /\
               pieces (self w') = pieces (self w) ++ qs.
Proof.
  induction cs as [|c cs IH]; intros Hbody w w' Hrs Hrun; simpl in Hrun.
  - inversion Hrun. subst. exists []. split; [constructor|].
    now rewrite app_nil_r.
  - unfold bind in Hrun.
    destruct (body c w) as [[] w1|e w1|] eqn:Hc; try discriminate.
    destruct (Hbody c w w1 (or_introl eq_refl) Hrs Hc)
      as (Hrs1 & ps & Hps & Hpieces).
    destruct (IH (fun c0 w0 w0' Hin => Hbody c0 w0 w0' (or_intror Hin))
                 w1 w' Hrs1 Hrun) as (qs & Hqs & Hpieces').
    exists (ps ++ qs). split; [now constructor|].
    rewrite Hpieces', Hpieces. now rewrite app_assoc.
Qed.

Lemma parse_sound (fuel : nat) :
  forall (node : element) (w w' : world R),
    parse randbelow fuel node w = Done tt w' ->
    exists ps, expands (refs (self w)) node ps /\
               pieces (self w') = pieces (self w) ++ ps.
Proof.
  induction fuel as [|fuel IH]; intros node w w' Hrun; [discriminate|].
  simpl in Hrun.
  destruct (String.eqb (tag node) "xref") eqn:Hx.
  - apply String.eqb_eq in Hx.
    unfold parse_xref, bind, read, random_child_element in Hrun.
    destruct (Dict.get (get node "id") (refs (self w))) as [rule|] eqn:Hget;
      [|discriminate].
    destruct (children rule) as [|c cs] eqn:Hcs; [discriminate|].
    destruct (choice_nonempty randbelow c cs w) as (y & r & Hy & Hc).
    rewrite Hc in Hrun.
    destruct (parse randbelow fuel y (mkWorld (self w) r))
      as [[] w2|e w2|] eqn:Hy2; try discriminate.
    apply IH in Hy2. destruct Hy2 as (ps & Hps & Hpieces).
    simpl in Hps, Hpieces.
    exists (ps ++ [or_empty (tail node)]). split.
    + apply expands_xref with (rule := rule) (alternative := y); auto.
      now rewrite Hcs.
    + unfold pieces_append, modify in Hrun. inversion Hrun. simpl.
      rewrite Hpieces. now rewrite app_assoc.
  - destruct (String.eqb (tag node) "p") eqn:Hp; [|discriminate].
    apply String.eqb_eq in Hp.
    unfold parse_p, bind, pieces_append, modify in Hrun.
    apply for_each_sound with (rs := refs (self w)) in Hrun.
    + destruct Hrun as (qs & Hqs & Hpieces). simpl in Hpieces.
      exists (or_empty (text node) :: qs). split; [now constructor|].
      rewrite Hpieces. rewrite <- app_assoc. reflexivity.
    + intros c w0 w0' _ Hw0 Hc. split.
      * pose proof (parse_keeps_refs randbelow fuel c w0) as Hk.
        rewrite Hc in Hk. simpl in Hk. congruence.
      * rewrite <- Hw0. now apply IH.
    + reflexivity.
Qed.

End Sound.

(** A run of [parse] that returns has added to the accumulator the pieces
    of one expansion of the node: for every reference one alternative of
    its rule followed by the tail of the reference, for every paragraph its
    text followed by its children in document order. *)
Theorem parse_generates_a_text_of_the_grammar
        (R : Type) (randbelow : R -> nat -> nat * R) (fuel : nat)
        (node : element) (w w' : world R) :
  parse randbelow fuel node w = Done tt w' ->
  exists ps, expands (refs (self w)) node ps /\
             pieces (self w') = pieces (self w) ++ ps.
Proof. apply parse_sound. Qed.

Lemma parse_generates_a_text_of_the_grammar_witness :
  exists ps,
    expands (refs (generator_of grammar_hi (xref_to "root")))
            xref_x_bang ps /\
    ["so"; "hi"; "!"] = ["so"] ++ ps.
Proof.
  apply (@parse_generates_a_text_of_the_grammar unit (always 0) 2
           xref_x_bang
           (mkWorld (set_pieces ["so"]
                       (generator_of grammar_hi (xref_to "root"))) tt)
           (mkWorld (set_pieces ["so"; "hi"; "!"]
                       (generator_of grammar_hi (xref_to "root"))) tt)).
  reflexivity.
Defined.

(** [refresh] starts from an empty accumulator whatever earlier calls left
    in it: the text it returns is the concatenation of the pieces of one
    expansion of the source, these pieces are what the accumulator holds
    afterwards, and [output] then returns the same text. *)
Theorem refresh_returns_a_text_of_the_grammar
        (R : Type) (randbelow : R -> nat -> nat * R) (fuel : nat)
        (w w' : world R) (s : string) :
  refresh randbelow fuel w = Done s w' ->
  exists ps,
    expands (refs (self w)) (source (self w)) ps /\
    pieces (self w') = ps /\
    s = join ps /\
    output w' = Done s w'.
Proof.
  unfold refresh, bind, reset, modify, read. simpl. intros Hrun.
  destruct (parse randbelow fuel (source (self w)) _)
    as [[] w1|e w1|] eqn:Hparse; try discriminate.
  apply parse_sound in Hparse. destruct Hparse as (ps & Hps & Hpieces).
  simpl in Hps, Hpieces. unfold output, read in *.
  exists ps. inversion Hrun as [[Hs Hw]]. subst w'.
  rewrite Hpieces. auto.
Qed.

Lemma refresh_returns_a_text_of_the_grammar_witness :
  exists ps,
    expands (refs (generator_of grammar_hi (xref_to "x")))
            (xref_to "x") ps /\
    ["hi"; EmptyString] = ps /\
    "hi" = join ps /\
    @output unit
            (mkWorld (set_pieces ["hi"; EmptyString]
                        (generator_of grammar_hi (xref_to "x"))) tt) =
    Done "hi"
         (mkWorld (set_pieces ["hi"; EmptyString]
                     (generator_of grammar_hi (xref_to "x"))) tt).
Proof.
  apply (@refresh_returns_a_text_of_the_grammar unit (always 0) 2
           (mkWorld (set_pieces ["old"]
                       (generator_of grammar_hi (xref_to "x"))) tt)
           (mkWorld (set_pieces ["hi"; EmptyString]
                       (generator_of grammar_hi (xref_to "x"))) tt)
           "hi").
  reflexivity.
Defined.

(** ** Every text of the grammar can be generated *)

Lemma choice_replay {A} (seq : list A) (c : A) :
  In c seq ->
  exists i,
    forall rest s,
      choice replay seq (mkWorld s (i :: rest)) = Done c (mkWorld s rest).
Proof.
  intros Hin. destruct seq as [|x seq]; [contradiction|].
  destruct (In_nth (x :: seq) c x Hin) as (i & Hi & Hnth).
  exists i. intros rest s. unfold choice, replay. cbn [rand self].
  now rewrite (Nat.mod_small i (length (x :: seq)) Hi), Hnth.
Qed.

Lemma set_pieces_twice (s : Generator) (ps qs : list string) :
  set_pieces (pieces (set_pieces (pieces s ++ ps) s) ++ qs)
             (set_pieces (pieces s ++ ps) s)
  = set_pieces (pieces s ++ ps ++ qs) s.
Proof. unfold set_pieces. simpl. now rewrite app_assoc. Qed.

(** The answers that lead [parse] through a given expansion, and a fuel
    that lets it through. *)
Lemma expands_replay (rs : Dict.t element) (node : element)
      (ps : list string) :
  expands rs node ps ->
  exists answers fuel,
    forall fuel' s rest,
      fuel <= fuel' -> refs s = rs ->
      parse replay fuel' node (mkWorld s (answers ++ rest)) =
      Done tt (mkWorld (set_pieces (pieces s ++ ps) s) rest).
Proof.
  intros H.
  induction H using expands_mut with
    (P0 := fun cs qs _ =>
             exists answers fuel,
               forall fuel' s rest,
                 fuel <= fuel' -> refs s = rs ->
                 for_each cs (parse replay fuel')
                          (mkWorld s (answers ++ rest)) =
                 Done tt (mkWorld (set_pieces (pieces s ++ qs) s) rest)).
  - destruct IHexpands as (answers & fuel & IH).
    destruct (choice_replay (children rule) alternative i) as (k & Hk).
    exists (k :: answers), (S fuel). intros fuel' s rest Hfuel Hrs.
    destruct fuel' as [|fuel']; [lia|].
    rewrite parse_S_xref by assumption.
    unfold parse_xref, bind at 1, read. cbn [self].
    rewrite Hrs, e0. unfold random_child_element.
    simpl app. erewrite bind_Done by apply Hk.
    erewrite bind_Done by (apply IH; [lia|assumption]).
    unfold pieces_append, modify. cbn [self rand].
    now rewrite set_pieces_twice.
  - destruct IHexpands as (answers & fuel & IH).
    exists answers, (S fuel). intros fuel' s rest Hfuel Hrs.
    destruct fuel' as [|fuel']; [lia|].
    rewrite parse_S_p by assumption.
    unfold parse_p. erewrite bind_Done by reflexivity.
    cbn [self rand].
    rewrite IH by (auto; lia).
    now rewrite (set_pieces_twice s [or_empty (text node)] ps).
  - exists [], 0. intros fuel' s rest _ _. simpl. unfold ret.
    rewrite app_nil_r. now destruct s.
  - destruct IHexpands as (answers1 & fuel1 & IH1).
    destruct IHexpands0 as (answers2 & fuel2 & IH2).
    exists (answers1 ++ answers2), (Nat.max fuel1 fuel2).
    intros fuel' s rest Hfuel Hrs. simpl.
    rewrite <- app_assoc.
    erewrite bind_Done by (apply IH1; [lia|assumption]).
    rewrite IH2 by (auto; lia).
    now rewrite set_pieces_twice.
Qed.

(** For every expansion of a node there are answers of the random source
    with which [parse] generates exactly its pieces: no alternative and no
    combination of alternatives is out of reach. *)
Theorem every_text_of_the_grammar_is_generated
        (node : element) (ps : list string) (s : Generator) :
  expands (refs s) node ps ->
  exists answers fuel rest,
    parse replay fuel node (mkWorld s answers) =
    Done tt (mkWorld (set_pieces (pieces s ++ ps) s) rest).
Proof.
  intros H. destruct (expands_replay H) as (answers & fuel & Hrun).
  exists answers, fuel, [].
  specialize (Hrun fuel s [] (le_n fuel) eq_refl).
  now rewrite app_nil_r in Hrun.
Qed.

Lemma every_text_of_the_grammar_is_generated_witness :
  exists answers fuel rest,
    parse replay fuel (xref_to "r")
          (mkWorld (generator_of grammar_two_depths (xref_to "r")) answers) =
    Done tt (mkWorld (set_pieces
                        (pieces (generator_of grammar_two_depths
                                              (xref_to "r")) ++
                         [EmptyString; "b"; EmptyString; EmptyString])
                        (generator_of grammar_two_depths (xref_to "r")))
                     rest).
Proof.
  apply (@every_text_of_the_grammar_is_generated (xref_to "r")
           [EmptyString; "b"; EmptyString; EmptyString]
           (generator_of grammar_two_depths (xref_to "r"))).
  apply (@expands_xref _ (xref_to "r") ref_r
                       (Element "p" [] None None [xref_to "s"])
                       [EmptyString; "b"; EmptyString]);
    [reflexivity | reflexivity | right; left; reflexivity |].
  apply (@expands_p _ (Element "p" [] None None [xref_to "s"])
                    ["b"; EmptyString]); [reflexivity|].
  apply (@expands_cons _ (xref_to "s") [] ["b"; EmptyString] []);
    [|constructor].
  apply (@expands_xref _ (xref_to "s") ref_s
                       (leaf "p" [] (Some "b") None) ["b"]);
    [reflexivity | reflexivity | left; reflexivity |].
  apply (@expands_p _ (leaf "p" [] (Some "b") None) []); [reflexivity|].
  constructor.
Defined.

(** ** Grammars on which the expansion cannot raise *)

Lemma rules_expandable_get (rs : Dict.t element) (k : pystr)
      (rule : element) :
  rules_expandable rs = true -> Dict.get k rs = Some rule ->
  children rule <> [] /\
  forall c, In c (children rule) -> expandable rs c = true.
Proof.
  intros Hall Hget. apply get_In in Hget.
  unfold rules_expandable in Hall. rewrite forallb_forall in Hall.
  specialize (Hall (k, rule) Hget). cbn [snd] in Hall.
  destruct (children rule) as [|c cs]; [discriminate|].
  split; [discriminate|]. now rewrite forallb_forall in Hall.
Qed.

Lemma for_each_done {R A} (body : A -> M R unit) (xs : list A)
      (inv : world R -> Prop) :
  (forall x w, In x xs -> inv w ->
               exists w', body x w = Done tt w' /\ inv w') ->
  forall w, inv w -> exists w', for_each xs body w = Done tt w'.
Proof.
  induction xs as [|x xs IH]; intros Hbody w Hw; simpl.
  - exists w. reflexivity.
  - destruct (Hbody x w (or_introl eq_refl) Hw) as (w1 & Hx & Hw1).
    erewrite bind_Done by exact Hx.
    apply IH; [|exact Hw1].
    intros y w0 Hy. apply Hbody. now right.
Qed.

Section NoError.

Variable R : Type.
Variable randbelow : R -> nat -> nat * R.

Lemma parse_done (rs : Dict.t element) (fuel : nat) :
  rules_expandable rs = true ->
  forall node k (w : world R),
    expandable rs node = true ->
    nesting rs fuel node < fuel ->
    nesting rs fuel node <= k ->
    refs (self w) = rs ->
    exists w', parse randbelow k node w = Done tt w'.
Proof.
  intros Hall.
  induction fuel as [|fuel IH]; intros node k w Hnode Hlt Hk Hrs; [lia|].
  assert (Hexp : expandable rs node =
                 if String.eqb (tag node) "xref"
                 then Dict.mem (get node "id") (Dict.keys rs)
                 else if String.eqb (tag node) "p"
                      then forallb (expandable rs) (children node)
                      else false) by (destruct node; reflexivity).
  rewrite Hexp in Hnode. clear Hexp.
  simpl in Hlt, Hk.
  destruct (String.eqb (tag node) "xref") eqn:Hx.
  - apply String.eqb_eq in Hx.
    apply DictFacts.mem_In in Hnode.
    destruct (Dict.get (get node "id") rs) as [rule|] eqn:Hget;
      [|apply DictFacts.get_None in Hget; contradiction].
    destruct (rules_expandable_get rs (get node "id") Hall Hget)
      as (Hne & Hcs).
    destruct k as [|k]; [lia|].
    rewrite (parse_S_xref randbelow k node Hx).
    unfold parse_xref, bind at 1, read. rewrite Hrs, Hget.
    unfold random_child_element.
    destruct (children rule) as [|c cs] eqn:Hch; [congruence|].
    destruct (choice_nonempty randbelow c cs w) as (y & r & Hy & Hc).
    erewrite bind_Done by exact Hc.
    pose proof (le_list_max_map (nesting rs fuel) (c :: cs) y Hy).
    destruct (IH y k (mkWorld (self w) r)) as (w2 & Hrun);
      [now apply Hcs | lia | lia | exact Hrs |].
    erewrite bind_Done by exact Hrun.
    eexists. reflexivity.
  - destruct (String.eqb (tag node) "p") eqn:Hp; [|discriminate].
    apply String.eqb_eq in Hp. rewrite forallb_forall in Hnode.
    destruct k as [|k]; [lia|].
    rewrite (parse_S_p randbelow k node Hp).
    unfold parse_p. erewrite bind_Done by reflexivity.
    apply (for_each_done _ _ (fun w' => refs (self w') = rs));
      [|exact Hrs].
    intros c w0 Hc Hw0.
    pose proof (le_list_max_map (nesting rs fuel) (children node) c Hc).
    destruct (IH c k w0) as (w1 & Hrun);
      [now apply Hnode | lia | lia | exact Hw0 |].
    exists w1. split; [exact Hrun|].
    pose proof (parse_keeps_refs randbelow k c w0) as Hkeep.
    rewrite Hrun in Hkeep. simpl in Hkeep. congruence.
Qed.

End NoError.

(** When no rule refers to itself through any chain of references, every
    rule has an alternative, and only p and xref elements with known ids
    stand in the alternatives and in the source, [refresh] returns a text
    in every recursion that is allowed to go as deep as the nesting depth
    of the grammar below the source: none of the errors of the expansion
    comes up, whatever the random source answers.  The fuel is the depth
    that the interpreter admits, counted in nested calls of [parse]; with
    less than the nesting depth a run can be cut off. *)
Theorem refresh_returns_a_text_within_the_nesting_depth
        (R : Type) (randbelow : R -> nat -> nat * R) (w : world R)
        (limit : nat) :
  acyclic (refs (self w)) ->
  rules_expandable (refs (self w)) = true ->
  expandable (refs (self w)) (source (self w)) = true ->
  nesting_depth (refs (self w)) (source (self w)) <= limit ->
  exists s w', refresh randbelow limit w = Done s w'.
Proof.
  intros Hacyc Hall Hsrc Hlimit.
  pose proof (nesting_depth_within (source (self w)) Hacyc) as Hdepth.
  destruct (@parse_done R randbelow (refs (self w))
              (S (nesting_bound (refs (self w)) (source (self w))))
              Hall (source (self w)) limit
              (mkWorld (set_capitalize_next_word false
                          (set_pieces [] (self w))) (rand w)))
    as (w1 & Hrun); auto.
  { unfold nesting_depth in Hdepth. lia. }
  unfold refresh, bind, reset, modify, read. simpl.
  simpl in Hrun. rewrite Hrun. eexists. eexists. reflexivity.
Qed.

Lemma refresh_returns_a_text_within_the_nesting_depth_witness :
  exists s w',
    refresh (always 1) 7
            (mkWorld (generator_of grammar_two_depths (xref_to "r")) tt)
    = Done s w'.
Proof.
  apply (@refresh_returns_a_text_within_the_nesting_depth unit (always 1)
           (mkWorld (generator_of grammar_two_depths (xref_to "r")) tt) 7).
  - apply (ranked_acyclic rank_r_s). reflexivity.
  - reflexivity.
  - reflexivity.
  - vm_compute. lia.
Defined.

(** In a grammar without reference cycles the recursion of [parse] is at
    most as deep as the number of rules times the height of the tallest
    rule element, plus the height of the node: that much fuel is enough for
    every run. *)
Theorem recursion_depth_is_bounded_by_the_size_of_the_grammar
        (R : Type) (randbelow : R -> nat -> nat * R)
        (node : element) (w : world R) :
  acyclic (refs (self w)) ->
  returns (parse randbelow
                 (length (Dict.keys (refs (self w))) *
                  max_rule_height (refs (self w)) + height node)
                 node w).
Proof.
  intros Hacyc.
  pose proof (nesting_depth_within node Hacyc) as Hdepth.
  unfold nesting_depth in Hdepth.
  apply parse_returns
    with (rs := refs (self w))
         (fuel := S (nesting_bound (refs (self w)) node)); auto.
  lia.
Qed.

Lemma recursion_depth_is_bounded_by_the_size_of_the_grammar_witness :
  returns (parse (always 1)
                 (length (Dict.keys
                            (refs (generator_of grammar_two_depths
                                                (xref_to "r")))) *
                  max_rule_height
                    (refs (generator_of grammar_two_depths (xref_to "r"))) +
                  height (xref_to "r"))
                 (xref_to "r")
                 (mkWorld (generator_of grammar_two_depths (xref_to "r")) tt)).
Proof.
  apply (@recursion_depth_is_bounded_by_the_size_of_the_grammar
           unit (always 1) (xref_to "r")
           (mkWorld (generator_of grammar_two_depths (xref_to "r")) tt)).
  apply (ranked_acyclic rank_r_s). reflexivity.
Defined.

(** ** The default source and the reference graph *)

Lemma iterdescendants_eq (node : element) :
  iterdescendants node =
  flat_map (fun c => c :: iterdescendants c) (children node).
Proof. destruct node. reflexivity. Qed.

Lemma In_iterdescendants (node x : element) :
  In x (iterdescendants node) <->
  exists c, In c (children node) /\ (x = c \/ In x (iterdescendants c)).
Proof.
  rewrite iterdescendants_eq, in_flat_map. simpl.
  split; intros (c & Hc & H); exists c; intuition.
Qed.

Lemma targets_eq (node : element) :
  targets node =
  if String.eqb (tag node) "xref" then [get node "id"]
  else if String.eqb (tag node) "p" then flat_map targets (children node)
       else [].
Proof. destruct node. reflexivity. Qed.

(** A reference that [parse] follows inside a tree is an xref element of
    the tree. *)
Lemma targets_are_xref_elements (b : pystr) (node : element) :
  In b (targets node) ->
  exists x, (x = node \/ In x (iterdescendants node)) /\
            tag x = "xref" /\ get x "id" = b.
Proof.
  induction node as [t a tx tl cs IH] using element_rect'.
  rewrite targets_eq. cbn [tag children].
  destruct (String.eqb_spec t "xref") as [Hx|Hx].
  - intros [<-|[]]. eexists. split; [left; reflexivity|]. split; auto.
  - destruct (String.eqb t "p"); [|intros []].
    intros Hin. apply in_flat_map in Hin. destruct Hin as (c & Hc & Hb).
    rewrite Forall_forall in IH.
    destruct (IH c Hc Hb) as (x & Hxc & Htag & Hid).
    exists x. split; [|auto]. right.
    apply In_iterdescendants. exists c. cbn [children]. auto.
Qed.

Lemma edge_target_is_counted (g : element) (a b : pystr) :
  edge (load_refs g) a b -> In b (xref_targets g).
Proof.
  intros (rule & c & Hget & Hc & Hb).
  rewrite load_refs_get in Hget. apply last_with_id_Some in Hget.
  destruct Hget as [Hrule _].
  unfold findall in Hrule. apply filter_In in Hrule.
  destruct Hrule as [Hrule _].
  destruct (targets_are_xref_elements b c Hb) as (x & Hxc & Htag & Hid).
  unfold xref_targets, findall_desc. apply in_map_iff.
  exists x. split; [exact Hid|]. apply filter_In. split.
  - apply In_iterdescendants. exists rule. split; [exact Hrule|]. right.
    apply In_iterdescendants. exists c. auto.
  - now apply String.eqb_eq.
Qed.

Lemma path_last_edge (rs : Dict.t element) (a b : pystr) :
  path rs a b -> exists a', edge rs a' b.
Proof.
  intros H. induction H as [a b Hab|a b c Hab Hbc IH]; eauto.
Qed.

(** The rule that [get_default_source] picks in a grammar just loaded is an
    entry point of the reference graph: no alternative of any rule holds a
    reference that [parse] would follow to it, so no chain of references
    leads to it. *)
Theorem default_source_is_an_entry_point
        (R : Type) (randbelow : R -> nat -> nat * R) (g : element)
        (w w' : world R) (s : string) :
  (load_grammar g ;; get_default_source randbelow)%py w = Done s w' ->
  exists e,
    s = xref_source e /\
    In e (Dict.keys (refs (self w'))) /\
    (forall a, ~ edge (refs (self w')) a e) /\
    (forall a, ~ path (refs (self w')) a e).
Proof.
  erewrite bind_Done by apply load_grammar_eq.
  unfold get_default_source, bind, read.
  cbn [self rand grammar refs set_refs set_grammar].
  destruct (standalone g (load_refs g)) as [|x xs] eqn:Hst; [discriminate|].
  destruct (choice_nonempty randbelow x xs
              (mkWorld (set_refs (load_refs g) (set_grammar g (self w)))
                       (rand w))) as (e & r & He & Hc).
  rewrite Hc. unfold ret. intros Hrun. inversion Hrun. subst s w'.
  rewrite <- Hst in He. apply standalone_spec in He.
  destruct He as [Hkey Hfree].
  assert (Hedge : forall a, ~ edge (load_refs g) a e).
  { intros a Ha. apply Hfree. eapply edge_target_is_counted. exact Ha. }
  exists e. cbn [self refs set_refs]. repeat split; auto.
  intros a Hp. destruct (path_last_edge Hp) as (a' & Ha').
  exact (Hedge a' Ha').
Qed.

Lemma default_source_is_an_entry_point_witness :
  exists e,
    xref_source (Some "root") = xref_source e /\
    In e (Dict.keys (refs (generator_of grammar_hi (xref_to "x")))) /\
    (forall a, ~ edge (refs (generator_of grammar_hi (xref_to "x"))) a e) /\
    (forall a, ~ path (refs (generator_of grammar_hi (xref_to "x"))) a e).
Proof.
  apply (@default_source_is_an_entry_point unit (always 0) grammar_hi
           (mkWorld (generator_of grammar_hello (xref_to "x")) tt)
           (mkWorld (set_refs (load_refs grammar_hi)
                       (set_grammar grammar_hi
                          (generator_of grammar_hello (xref_to "x")))) tt)
           (xref_source (Some "root"))).
  reflexivity.
Defined.

(** ** Loading again *)

(** Loading a second grammar replaces the first: the object is as if the
    second grammar alone had been loaded, with no rule of the first one
    left in the dictionary. *)
Theorem load_grammar_replaces_the_rules
        (R : Type) (g1 g2 : element) (w : world R) :
  (load_grammar g1 ;; load_grammar g2)%py w = load_grammar g2 w.
Proof.
  erewrite bind_Done by apply load_grammar_eq.
  rewrite !load_grammar_eq. reflexivity.
Qed.

(** ** Trees that the expansion cannot get through *)

Lemma for_each_never_done {R} (bad : element -> bool)
      (inv : world R -> Prop) (body : element -> M R unit)
      (cs : list element) :
  existsb bad cs = true ->
  (forall c w w', bad c = true -> inv w -> body c w <> Done tt w') ->
  (forall c w w', inv w -> body c w = Done tt w' -> inv w') ->
  forall w w', inv w -> for_each cs body w <> Done tt w'.
Proof.
  intros Hbad Hbody Hinv.
  induction cs as [|c cs IH]; intros w w' Hw; [discriminate|].
  simpl in *. unfold bind.
  destruct (body c w) as [[] w1|e w1|] eqn:Hc; try discriminate.
  destruct (bad c) eqn:Hb.
  - exfalso. exact (Hbody c w w1 Hb Hw Hc).
  - apply IH; [exact Hbad|]. exact (Hinv c w w1 Hw Hc).
Qed.

Lemma unknown_inside_eq (node : element) :
  unknown_inside node =
  if String.eqb (tag node) "xref" then false
  else if String.eqb (tag node) "p"
       then existsb unknown_inside (children node)
       else true.
Proof. destruct node. reflexivity. Qed.

Lemma needs_a_rule_eq (node : element) :
  needs_a_rule node =
  if String.eqb (tag node) "xref" then true
  else if String.eqb (tag node) "p"
       then existsb needs_a_rule (children node)
       else true.
Proof. destruct node. reflexivity. Qed.

(** A paragraph that holds an element other than xref and p, directly or
    inside nested paragraphs, never expands: [parse] raises on the way or
    at that element, whatever the rules and the random source are. *)
Theorem unknown_element_is_never_expanded
        (R : Type) (randbelow : R -> nat -> nat * R) (fuel : nat)
        (node : element) (w w' : world R) :
  unknown_inside node = true ->
  parse randbelow fuel node w <> Done tt w'.
Proof.
  revert node w w'.
  induction fuel as [|fuel IH]; intros node w w' Hbad; [discriminate|].
  rewrite unknown_inside_eq in Hbad. simpl.
  destruct (String.eqb (tag node) "xref"); [discriminate|].
  destruct (String.eqb (tag node) "p"); [|discriminate].
  unfold parse_p, bind, pieces_append, modify.
  apply (for_each_never_done unknown_inside (fun _ => True)); auto.
Qed.

Lemma unknown_element_is_never_expanded_witness :
  parse (always 0) 3 p_with_b
        (mkWorld (generator_of grammar_hi (xref_to "x")) tt)
  <> Done tt (mkWorld (set_pieces ["a"]
                         (generator_of grammar_hi (xref_to "x"))) tt).
Proof.
  apply (@unknown_element_is_never_expanded unit (always 0) 3 p_with_b).
  reflexivity.
Defined.

(** When every alternative of every rule holds a reference (or an element
    that [parse] does not know), no reference and no paragraph holding one
    ever expands to a text: the recursion has no alternative to end on. *)
Theorem grammar_without_literal_alternative_generates_nothing
        (R : Type) (randbelow : R -> nat -> nat * R) (fuel : nat)
        (node : element) (w w' : world R) :
  no_literal_alternative (refs (self w)) = true ->
  needs_a_rule node = true ->
  parse randbelow fuel node w <> Done tt w'.
Proof.
  intros Hall. revert node w' Hall.
  generalize (eq_refl (refs (self w))).
  generalize (refs (self w)) at 2 3 as rs. intros rs Hrs. revert w Hrs.
  induction fuel as [|fuel IH]; intros w Hrs node w' Hall Hbad;
    [discriminate|].
  rewrite needs_a_rule_eq in Hbad. simpl.
  destruct (String.eqb (tag node) "xref").
  - unfold parse_xref, bind, read, random_child_element. rewrite Hrs.
    destruct (Dict.get (get node "id") rs) as [rule|] eqn:Hget;
      [|discriminate].
    destruct (children rule) as [|c cs] eqn:Hcs; [discriminate|].
    destruct (choice_nonempty randbelow c cs w) as (y & r & Hy & Hc).
    rewrite Hc.
    destruct (parse randbelow fuel y (mkWorld (self w) r))
      as [[] w2|e w2|] eqn:Hrun; try discriminate.
    exfalso. apply (IH (mkWorld (self w) r) Hrs y w2 Hall); [|exact Hrun].
    apply get_In in Hget. unfold no_literal_alternative in Hall.
    rewrite forallb_forall in Hall. specialize (Hall _ Hget).
    cbn [snd] in Hall. rewrite forallb_forall in Hall.
    apply Hall. now rewrite Hcs.
  - destruct (String.eqb (tag node) "p"); [|discriminate].
    unfold parse_p, bind, pieces_append, modify.
    apply (for_each_never_done needs_a_rule
                               (fun w0 => refs (self w0) = rs)).
    + exact Hbad.
    + intros c w0 w0' Hc Hw0. now apply IH.
    + intros c w0 w0' Hw0 Hrun.
      pose proof (parse_keeps_refs randbelow fuel c w0) as Hk.
      rewrite Hrun in Hk. simpl in Hk. congruence.
    + exact Hrs.
Qed.

Lemma grammar_without_literal_alternative_generates_nothing_witness :
  parse (always 0) 9 (xref_to "a")
        (mkWorld (generator_of grammar_mutual (xref_to "a")) tt)
  <> Done tt (mkWorld (generator_of grammar_mutual (xref_to "a")) tt).
Proof.
  apply (@grammar_without_literal_alternative_generates_nothing
           unit (always 0) 9 (xref_to "a")
           (mkWorld (generator_of grammar_mutual (xref_to "a")) tt));
    reflexivity.
Defined.

(** ** The constructor without a start *)

(** Without a source, or with the empty string as source, [__init__] on a
    grammar in which every rule is the target of a reference raises the
    [ValueError] of [get_default_source]: the grammar and its rules are
    stored, no source is loaded, and nothing is generated. *)
Theorem init_without_source_needs_an_unreferenced_rule
        (R : Type) (randbelow : R -> nat -> nat * R)
        (S : Type) (fs_open : string -> open_result S) (stdin : S)
        (StringIO : string -> S) (etree_parse : S -> element + exn)
        (grammar_arg : source_arg S) (src : option (source_arg S))
        (sock : S) (g : element) (fuel : nat) (w : world R) :
  open_anything fs_open stdin StringIO grammar_arg = inl sock ->
  etree_parse sock = inl g ->
  standalone g (load_refs g) = [] ->
  truthy src = false ->
  init randbelow fs_open stdin StringIO etree_parse fuel grammar_arg src w =
  Raise ValueError
        (mkWorld (set_refs (load_refs g) (set_grammar g (self w))) (rand w)).
Proof.
  intros Hopen Hdoc Hst Hsrc. unfold init.
  erewrite bind_Done
    by (rewrite (@_load_resolved R S fs_open stdin StringIO etree_parse
                   grammar_arg sock w Hopen), Hdoc;
        reflexivity).
  erewrite bind_Done by apply load_grammar_eq.
  assert (Hdefault :
            get_default_source randbelow
              (mkWorld (set_refs (load_refs g) (set_grammar g (self w)))
                       (rand w)) =
            Raise ValueError
              (mkWorld (set_refs (load_refs g) (set_grammar g (self w)))
                       (rand w))).
  { unfold get_default_source, bind, read.
    cbn [self grammar refs set_refs set_grammar]. now rewrite Hst. }
  destruct src as [s|]; [rewrite Hsrc|]; unfold bind; now rewrite Hdefault.
Qed.

Lemma init_without_source_needs_an_unreferenced_rule_witness :
  init (always 0) no_files EmptyString text_stream parse_mutual 9
       (Name text_mutual) (Some (Name EmptyString))
       (mkWorld (generator_of grammar_hi (xref_to "x")) tt) =
  Raise ValueError
        (mkWorld (set_refs (load_refs grammar_mutual)
                    (set_grammar grammar_mutual
                       (generator_of grammar_hi (xref_to "x")))) tt).
Proof.
  apply (@init_without_source_needs_an_unreferenced_rule
           unit (always 0) string no_files EmptyString text_stream
           parse_mutual (Name text_mutual) (Some (Name EmptyString))
           (text_stream text_mutual) grammar_mutual 9
           (mkWorld (generator_of grammar_hi (xref_to "x")) tt));
    reflexivity.
Defined.

(** ** The candidates for the default source *)

(** In a grammar just loaded the list from which [get_default_source]
    draws names every unreferenced rule once, also a rule whose id stands on
    several ref elements: no rule is drawn with more weight than another. *)
Theorem default_source_candidates_are_distinct
        (R : Type) (g : element) (w : world R) :
  exists w',
    load_grammar g w = Done tt w' /\
    NoDup (standalone (grammar (self w')) (refs (self w'))).
Proof.
  rewrite load_grammar_eq. eexists. split; [reflexivity|].
  cbn [self grammar refs set_refs set_grammar].
  unfold standalone. apply NoDup_filter. apply load_refs_NoDup.
Qed.
